(** * Talps Manager: the task scheduler of [src/manager.rs], [src/spmc_queue.rs]
      and [src/task.rs], embedded in Rocq.

    The registry [task_map] of the Rust code maps task ids to
    [Arc<RwLock<Task>>] handles, and the ready queue holds clones of the same
    handles, so that both see every mutation.  We model the shared objects as
    a heap of handles ([heap : gmap nat Task]), allocated in submission order;
    [task_map] maps ids to handles and [ready_q] is a list of handles.

    Worker threads are modelled by their program counter and their local copy
    [status_v] of the manager status; a worker step is one atomic piece of the
    loop in [TaskManager::new]; [submit] is a sequence of such pieces too,
    interleaved with the workers' steps.  A few ghost fields ([edges], [done_h],
    [started_h]) only record history: which dependency edges [is_ready]
    registered, which handles were dequeued, which finished their completion
    block.  They never influence a step. *)

From Stdlib Require Import String NArith Lia.
From stdpp Require Import base gmap list.

(** ** Data model: [src/task.rs] *)

Module TaskStatus.
Inductive Status := Running | Pending.
End TaskStatus.

Record Task := mkTask {
  id : nat;
  name : string;
  depend : list nat;
  status : TaskStatus.Status;
  file_name : string;
  in_degree : nat;
  next : list nat;
  test : bool
}.

Definition set_in_degree (t : Task) (n : nat) : Task :=
  mkTask (id t) (name t) (depend t) (status t) (file_name t) n (next t) (test t).

(** [next.push(x)] on a task record. *)
Definition push_next (x : nat) (t : Task) : Task :=
  mkTask (id t) (name t) (depend t) (status t) (file_name t) (in_degree t)
    (next t ++ [x]) (test t).

(** ** Manager state: [src/manager.rs] *)

Inductive ManagerStatus := Running | Stopped | Shutdown.

#[global] Instance ManagerStatus_eq_dec : EqDecision ManagerStatus.
Proof. solve_decision. Defined.

(** Program counter of a worker thread, following the closure spawned in
    [TaskManager::new]:
    - [WStart]: thread not yet started, about to read the status (line 62);
    - [WLoop]: at the head of [while status_v != Shutdown] (line 63);
    - [WWait]: inside [condvar.wait] (line 65);
    - [WPop]: inside [ready_q.pop()] (line 71);
    - [WBusy h t]: holding the copy [t] of the task behind handle [h],
      taken at line 72, executing it and then running the completion block;
    - [WExited]: returned [Ok(())];
    - [WFailed]: returned the [Err] of [task_test_run] through [?]. *)
Inductive pc :=
  | WStart | WLoop | WWait | WPop
  | WBusy (h : nat) (t : Task)
  | WExited | WFailed.

Record worker := mkWorker { status_v : ManagerStatus; wpc : pc }.

Record SysState := mkSys {
  mgr_status : ManagerStatus;
  heap : gmap nat Task;           (* the tasks behind the Arc handles *)
  task_map : gmap nat nat;        (* BTreeMap<usize, Arc<RwLock<Task>>> *)
  ready_q : list nat;             (* SPMCQueue<Arc<RwLock<Task>>> *)
  next_handle : nat;              (* next handle to allocate *)
  threads : list worker;
  files : list string;            (* paths written by [task_test_run] *)
  (* ghost history *)
  edges : list (nat * nat);       (* (dependent, dependency) registered *)
  done_h : list nat;              (* handles whose completion block ran *)
  started_h : list nat            (* handles dequeued by a worker *)
}.

(** [TaskManager::new(n)] *)
Definition init (n : nat) : SysState :=
  mkSys Stopped ∅ ∅ [] 0 (repeat (mkWorker Stopped WStart) n) [] [] [] [].

Inductive Res := ROk | RStateError.

(** ** [TaskManager::is_ready]

    Walks [task.depend]; for each id found in the registry it increments
    the in-degree of the new task and pushes the new task's id on the
    dependency's [next] list (through the shared handle).  [h] is the handle
    of the new task, used for the ghost [edges]. *)
Fixpoint is_ready_loop (tm : gmap nat nat) (h : nat) (deps : list nat)
    (t : Task) (hp : gmap nat Task) (ready : bool) (eds : list (nat * nat))
    : Task * gmap nat Task * bool * list (nat * nat) :=
  match deps with
  | [] => (t, hp, ready, eds)
  | dep :: rest =>
      match tm !! dep with
      | Some hd =>
          is_ready_loop tm h rest (set_in_degree t (S (in_degree t)))
            (alter (push_next (id t)) hd hp) false (eds ++ [(h, hd)])
      | None => is_ready_loop tm h rest t hp ready eds
      end
  end.

Definition is_ready (tm : gmap nat nat) (h : nat) (t : Task)
    (hp : gmap nat Task) (eds : list (nat * nat))
    : Task * gmap nat Task * bool * list (nat * nat) :=
  match depend t with
  | [] => (t, hp, true, eds)
  | _ => is_ready_loop tm h (depend t) t hp true eds
  end.

(** ** [TaskManager::submit]

    The effect of one call whose steps run back to back, with no worker step
    in between.  The steps themselves, and their interleaving with the
    workers, are [submit_start] and [submit_step] below. *)
Definition submit (s : SysState) (t : Task) : Res * SysState :=
  match mgr_status s with
  | Shutdown => (RStateError, s)
  | _ =>
      let h := next_handle s in
      let '(t', hp, rdy, eds) := is_ready (task_map s) h t (heap s) (edges s) in
      let q := if rdy then ready_q s ++ [h] else ready_q s in
      (ROk, mkSys (mgr_status s) (<[h := t']> hp) (<[id t := h]> (task_map s))
              q (S h) (threads s) (files s) eds (done_h s) (started_h s))
  end.

(** ** Lifecycle: [run], [stop], [shutdown] on the status value. *)
Definition run_status (st : ManagerStatus) : Res * ManagerStatus :=
  match st with
  | Running => (ROk, Running)
  | Stopped => (ROk, Running)
  | Shutdown => (RStateError, Shutdown)
  end.

Definition stop_status (st : ManagerStatus) : Res * ManagerStatus :=
  match st with
  | Running => (ROk, Stopped)
  | Stopped => (ROk, Stopped)
  | Shutdown => (RStateError, Shutdown)
  end.

Definition shutdown_status (st : ManagerStatus) : Res * ManagerStatus :=
  match st with
  | Running | Stopped => (ROk, Shutdown)
  | Shutdown => (RStateError, Shutdown)
  end.

Definition set_status (s : SysState) (st : ManagerStatus) : SysState :=
  mkSys st (heap s) (task_map s) (ready_q s) (next_handle s) (threads s)
    (files s) (edges s) (done_h s) (started_h s).

Definition lift_status (f : ManagerStatus -> Res * ManagerStatus)
    (s : SysState) : Res * SysState :=
  let '(r, st) := f (mgr_status s) in (r, set_status s st).

(** [run] also calls [condvar.notify_all()]; waiting workers are modelled as
    able to wake at any time (see [worker_step]), so the notification adds no
    transition.  [stop] and [shutdown] only write the status; [shutdown]
    never touches [threads]. *)
Definition run (s : SysState) : Res * SysState := lift_status run_status s.
Definition stop (s : SysState) : Res * SysState := lift_status stop_status s.
Definition shutdown (s : SysState) : Res * SysState := lift_status shutdown_status s.

(** ** The completion block of the worker loop (lines 80-99)

    [map.remove(&task.id)], then for each id of [task.next]: look it up in
    the registry, [assert_ne!(in_degree, 0)] (a failed assertion panics:
    [None]), decrement, and when it reaches zero push the handle on the ready
    queue and remember the id; after the loop remove every remembered id
    from the registry.  [tm] is the registry after the first removal; it is
    not changed during the loop. *)
Fixpoint release (tm : gmap nat nat) (nexts : list nat) (hp : gmap nat Task)
    (q : list nat) (ready_list : list nat)
    : option (gmap nat Task * list nat * list nat) :=
  match nexts with
  | [] => Some (hp, q, ready_list)
  | i :: rest =>
      match tm !! i with
      | None => release tm rest hp q ready_list
      | Some h =>
          match hp !! h with
          | None => release tm rest hp q ready_list  (* no dangling handle in Rust *)
          | Some nt =>
              if Nat.eqb (in_degree nt) 0 then None
              else
                let nt' := set_in_degree nt (in_degree nt - 1) in
                let hp' := <[h := nt']> hp in
                if Nat.eqb (in_degree nt') 0
                then release tm rest hp' (q ++ [h]) (ready_list ++ [id nt'])
                else release tm rest hp' q ready_list
          end
      end
  end.

Definition complete_block (s : SysState) (t : Task) : option SysState :=
  let tm := delete (id t) (task_map s) in
  match release tm (next t) (heap s) (ready_q s) [] with
  | None => None
  | Some (hp, q, rl) =>
      Some (mkSys (mgr_status s) hp (foldl (fun m r => delete r m) tm rl) q
              (next_handle s) (threads s) (files s) (edges s) (done_h s)
              (started_h s))
  end.

(** ** Worker steps

    [worker_step s w io_ok] runs one atomic piece of the loop of worker [w];
    [None] when the worker is blocked, finished, or panics.  [io_ok] tells
    whether [task_test_run] succeeds (the file system may refuse the write).
    A worker in [condvar.wait] may wake at any time: Rust's [Condvar::wait]
    allows spurious wake-ups, and [run] notifies all. *)
Definition set_thread (s : SysState) (w : nat) (wk : worker) : SysState :=
  mkSys (mgr_status s) (heap s) (task_map s) (ready_q s) (next_handle s)
    (<[w := wk]> (threads s)) (files s) (edges s) (done_h s) (started_h s).

Definition add_file (s : SysState) (f : string) : SysState :=
  mkSys (mgr_status s) (heap s) (task_map s) (ready_q s) (next_handle s)
    (threads s) (files s ++ [f]) (edges s) (done_h s) (started_h s).

Definition mark_done (s : SysState) (h : nat) : SysState :=
  mkSys (mgr_status s) (heap s) (task_map s) (ready_q s) (next_handle s)
    (threads s) (files s) (edges s) (done_h s ++ [h]) (started_h s).

(** [ready_q.pop()]: blocks while the queue is empty, otherwise removes the
    front handle; line 72 copies the task behind it. *)
Definition pop_step (s : SysState) (w : nat) (v : ManagerStatus)
    : option SysState :=
  match ready_q s with
  | [] => None
  | h :: q' =>
      match heap s !! h with
      | None => None
      | Some t =>
          Some (mkSys (mgr_status s) (heap s) (task_map s) q' (next_handle s)
                  (<[w := mkWorker v (WBusy h t)]> (threads s)) (files s)
                  (edges s) (done_h s) (started_h s ++ [h]))
      end
  end.

(** Lines 75-99: a stub-mode task ([test]) is written out by
    [task_test_run], whose error leaves the closure through [?]; a real-mode
    task is not executed at all.  Then the completion block. *)
Definition finish_step (s : SysState) (w : nat) (v : ManagerStatus)
    (h : nat) (t : Task) (io_ok : bool) : option SysState :=
  let finish s1 :=
    match complete_block s1 t with
    | None => None
    | Some s2 => Some (mark_done (set_thread s2 w (mkWorker v WLoop)) h)
    end in
  if test t then
    if io_ok then finish (add_file s (file_name t))
    else Some (set_thread s w (mkWorker v WFailed))
  else finish s.

Definition worker_step (s : SysState) (w : nat) (io_ok : bool)
    : option SysState :=
  match threads s !! w with
  | None => None
  | Some (mkWorker v p) =>
      match p with
      | WStart => Some (set_thread s w (mkWorker (mgr_status s) WLoop))
      | WLoop =>
          match v with
          | Shutdown => Some (set_thread s w (mkWorker v WExited))
          | Stopped => Some (set_thread s w (mkWorker v WWait))
          | Running => Some (set_thread s w (mkWorker v WPop))
          end
      | WWait => Some (set_thread s w (mkWorker (mgr_status s) WLoop))
      | WPop => pop_step s w v
      | WBusy h t => finish_step s w v h t io_ok
      | WExited | WFailed => None
      end
  end.

(** ** Interleavings

    In [run_trace] each call of the API is one step, interleaved with the
    workers' steps.  Only [submit] is not atomic in the code: its own steps
    are interleaved with the workers in [frun_trace] below, of which the
    traces here, with every [submit] run back to back, are a special case
    ([seq_trace], [submit_steps_uninterrupted]). *)
Inductive label :=
  | LSubmit (t : Task)
  | LRun | LStop | LShutdown
  | LWorker (w : nat) (io_ok : bool).

Definition step (s : SysState) (l : label) : option SysState :=
  match l with
  | LSubmit t => Some (submit s t).2
  | LRun => Some (run s).2
  | LStop => Some (stop s).2
  | LShutdown => Some (shutdown s).2
  | LWorker w b => worker_step s w b
  end.

Fixpoint run_trace (s : SysState) (tr : list label) : option SysState :=
  match tr with
  | [] => Some s
  | l :: tr' =>
      match step s l with
      | None => None
      | Some s' => run_trace s' tr'
      end
  end.

Fixpoint submitted (tr : list label) : list Task :=
  match tr with
  | [] => []
  | LSubmit t :: tr' => t :: submitted tr'
  | _ :: tr' => submitted tr'
  end.

(** A task as built by every caller in the repository. *)
Definition mk_stub (i : nat) (deps : list nat) (f : string) : Task :=
  mkTask i "wwt" deps TaskStatus.Pending f 0 [] true.

Definition mk_real (i : nat) (deps : list nat) : Task :=
  mkTask i "wwt" deps TaskStatus.Pending "" 0 [] false.

(** Every worker performs one step, in index order. *)
Definition all_workers (n : nat) : list label :=
  map (fun w => LWorker w true) (seq 0 n).

(** ** Auxiliary definitions for the statements *)

(** Number of entries of [l] that the registry [tm] maps to handle [h]. *)
Definition cnt (tm : gmap nat nat) (l : list nat) (h : nat) : nat :=
  length (filter (fun i => tm !! i = Some h) l).

(** Handles found in the registry for the ids of [deps]. *)
Definition present (tm : gmap nat nat) (deps : list nat) : list nat :=
  omap (fun d => tm !! d) deps.

(** [k] times [next.push(x)]. *)
Definition push_many (k x : nat) (t : Task) : Task := Nat.iter k (push_next x) t.

(** Reachable from a fresh manager with [n] workers. *)
Definition reachable (n : nat) (s : SysState) : Prop :=
  exists tr, run_trace (init n) tr = Some s.

(** Every submitted task carries a fresh id and an empty [next] list. *)
Definition well_submitted (tr : list label) : Prop :=
  NoDup (map id (submitted tr)) /\ Forall (fun t => next t = []) (submitted tr).



(** Concrete traces. *)
Definition tr_released_dep : list label :=
  [LSubmit (mk_stub 0 [] "a"); LSubmit (mk_stub 1 [0] "b"); LRun;
   LWorker 0 true; LWorker 0 true; LWorker 0 true; LWorker 0 true;
   LSubmit (mk_stub 2 [1] "c");
   LWorker 0 true; LWorker 0 true;
   LWorker 1 true; LWorker 1 true; LWorker 1 true].

Definition tr_late_dependent : list label :=
  [LSubmit (mk_stub 0 [] "d"); LRun;
   LWorker 0 true; LWorker 0 true; LWorker 0 true;
   LSubmit (mk_stub 1 [0] "t")].

Definition tr_busy : list label :=
  [LSubmit (mk_stub 0 [] "a"); LRun;
   LWorker 0 true; LWorker 0 true; LWorker 0 true].

Definition tr_idle : list label := [LRun; LWorker 0 true; LWorker 0 true].

Definition tr_failing : list label :=
  [LSubmit (mk_stub 0 [] "a"); LSubmit (mk_stub 1 [0] "b"); LRun;
   LWorker 0 true; LWorker 0 true; LWorker 0 true; LWorker 0 false].

Definition tr_real : list label :=
  [LSubmit (mk_real 0 []); LRun;
   LWorker 0 true; LWorker 0 true; LWorker 0 true; LWorker 0 true].



(** A caller-built task with in-degree 1 and no dependencies. *)
Definition task_with_degree : Task :=
  mkTask 0 "wwt" [] TaskStatus.Pending "t" 1 [] true.

Ltac eval_trace E := vm_compute in E; injection E as <-.

(** ** The scheduling invariant

    [pend s hT]: registered dependencies of handle [hT] whose completion
    block has not run yet. *)
Definition pend (s : SysState) (hT : nat) : nat :=
  length (filter (fun e => e.1 = hT /\ e.2 ∉ done_h s) (edges s)).

(** Number of registrations of the edge [(hT, hD)]. *)
Definition ecount (s : SysState) (hT hD : nat) : nat :=
  length (filter (fun e => e = (hT, hD)) (edges s)).

(** Handle [h] is queued or has been dequeued. *)
Definition issued (s : SysState) (h : nat) : Prop :=
  h ∈ ready_q s \/ h ∈ started_h s.

Record Inv (s : SysState) : Prop := {
  inv_dom : forall h, is_Some (heap s !! h) <-> h < next_handle s;
  inv_map : forall i h, task_map s !! i = Some h ->
    exists t, heap s !! h = Some t /\ id t = i;
  inv_next_ids : forall hD tD i, heap s !! hD = Some tD -> i ∈ next tD ->
    exists h u, heap s !! h = Some u /\ id u = i;
  inv_next_cnt : forall hD tD hT, heap s !! hD = Some tD ->
    cnt (task_map s) (next tD) hT <= ecount s hT hD;
  inv_edges : forall e, e ∈ edges s -> e.1 < next_handle s;
  inv_snap : forall w v h t, threads s !! w = Some (mkWorker v (WBusy h t)) ->
    exists tD, heap s !! h = Some tD /\ id t = id tD /\ next t `prefix_of` next tD;
  inv_deg : forall i hT tT, task_map s !! i = Some hT -> heap s !! hT = Some tT ->
    pend s hT <= in_degree tT;
  inv_busy : forall w v h t, threads s !! w = Some (mkWorker v (WBusy h t)) ->
    h ∈ started_h s /\ h ∉ done_h s;
  inv_busy_uniq : forall w1 w2 v1 v2 h t1 t2,
    threads s !! w1 = Some (mkWorker v1 (WBusy h t1)) ->
    threads s !! w2 = Some (mkWorker v2 (WBusy h t2)) -> w1 = w2;
  inv_q_nodup : NoDup (ready_q s);
  inv_q : forall h, h ∈ ready_q s -> (h ∉ started_h s) /\ h < next_handle s;
  inv_started : forall h, h ∈ started_h s -> h < next_handle s;
  inv_done : forall h, h ∈ done_h s -> h ∈ started_h s;
  inv_fresh_edges : forall i hT hD, task_map s !! i = Some hT -> issued s hT ->
    (hT, hD) ∉ edges s;
  inv_order : forall hT hD, (hT, hD) ∈ edges s -> issued s hT -> hD ∈ done_h s
}.

(** Ids of tasks already submitted. *)
Definition fresh_for (s : SysState) (t : Task) : Prop :=
  forall h u, heap s !! h = Some u -> id u <> id t.

(** Ids of the tasks behind handles do not change, except by submission. *)
Definition ids_kept (s s' : SysState) : Prop :=
  forall x u, heap s' !! x = Some u -> exists u0, heap s !! x = Some u0 /\ id u0 = id u.

(** ** [submit] interleaved with the workers

    [submit] above is the effect of one call whose steps follow each other
    with no worker step in between ([submit_steps_uninterrupted] shows that the steps below,
    run back to back, give exactly that effect).  The workers keep running
    during a call, though: [submit] holds the write guard of the new task's
    [Arc] from its creation to the end of the call, but [is_ready] locks the
    registry once per dependency (line 150; the guard taken in the condition
    of the [if let] is held through its body, lines 150-157), and the task is
    inserted in the registry afterwards, under a new lock (lines 129-132).
    A call is therefore a sequence of atomic steps:
    - [submit_start]: read the status; in Running or Stopped allocate the
      task (heap cell [h]); in Shutdown return the error (lines 114-118,
      138-140);
    - [submit_step] with dependency ids left: one iteration of the loop of
      [is_ready] (lines 150-157); an empty [depend] returns [true] at once
      (lines 145-147), as the loop over no id does;
    - [submit_step] with none left: push the task when it is ready
      (lines 124-126) and insert it in the registry (lines 129-132).  The
      two are one step: in between, the task is reachable only through the
      queue, a worker that pops it waits in [task.read()] (line 72) until
      [submit] drops the write guard after the insertion, and no step looks
      its id up in the registry (a ready task registered no edge, so no
      [next] list holds its id).
    The API calls take [&mut self]: no other call starts before [submit]
    returns.  [sub_rdy] is the local [is_ready] of the loop. *)
Record Sub := mkSub { sub_h : nat; sub_rest : list nat; sub_rdy : bool }.

Record FState := mkF { fsys : SysState; fsub : option Sub }.

Definition finit (n : nat) : FState := mkF (init n) None.

Definition submit_start (s : SysState) (t : Task) : FState :=
  match mgr_status s with
  | Shutdown => mkF s None
  | _ =>
      let h := next_handle s in
      mkF (mkSys (mgr_status s) (<[h := t]> (heap s)) (task_map s) (ready_q s)
             (S h) (threads s) (files s) (edges s) (done_h s) (started_h s))
          (Some (mkSub h (depend t) true))
  end.

Definition submit_step (s : SysState) (sb : Sub) : option FState :=
  let h := sub_h sb in
  match heap s !! h with
  | None => None
  | Some t =>
      match sub_rest sb with
      | dep :: rest =>
          match task_map s !! dep with
          | Some hd =>
              Some (mkF (mkSys (mgr_status s)
                      (alter (push_next (id t)) hd
                         (<[h := set_in_degree t (S (in_degree t))]> (heap s)))
                      (task_map s) (ready_q s) (next_handle s) (threads s)
                      (files s) (edges s ++ [(h, hd)]) (done_h s) (started_h s))
                    (Some (mkSub h rest false)))
          | None => Some (mkF s (Some (mkSub h rest (sub_rdy sb))))
          end
      | [] =>
          Some (mkF (mkSys (mgr_status s) (heap s) (<[id t := h]> (task_map s))
                  (if sub_rdy sb then ready_q s ++ [h] else ready_q s)
                  (next_handle s) (threads s) (files s) (edges s) (done_h s)
                  (started_h s))
                None)
      end
  end.

(** A call of the API: refused while the caller is inside [submit]. *)
Definition api_call (fs : FState) (f : SysState -> Res * SysState) : option FState :=
  match fsub fs with
  | None => Some (mkF (f (fsys fs)).2 None)
  | Some _ => None
  end.

Inductive flabel := FCall (l : label) | FSubStep.

Definition fstep (fs : FState) (l : flabel) : option FState :=
  match l with
  | FSubStep =>
      match fsub fs with
      | Some sb => submit_step (fsys fs) sb
      | None => None
      end
  | FCall (LSubmit t) =>
      match fsub fs with
      | None => Some (submit_start (fsys fs) t)
      | Some _ => None
      end
  | FCall LRun => api_call fs run
  | FCall LStop => api_call fs stop
  | FCall LShutdown => api_call fs shutdown
  | FCall (LWorker w b) =>
      match worker_step (fsys fs) w b with
      | Some s' => Some (mkF s' (fsub fs))
      | None => None
      end
  end.

Fixpoint frun_trace (fs : FState) (tr : list flabel) : option FState :=
  match tr with
  | [] => Some fs
  | l :: tr' =>
      match fstep fs l with
      | None => None
      | Some fs' => frun_trace fs' tr'
      end
  end.



(** The steps of one call of [submit], back to back. *)
Definition fsubmit (t : Task) : list flabel :=
  FCall (LSubmit t) :: repeat FSubStep (S (length (depend t))).

(** A trace of [run_trace], each [submit] run back to back. *)
Fixpoint seq_trace (tr : list label) : list flabel :=
  match tr with
  | [] => []
  | LSubmit t :: tr' => fsubmit t ++ seq_trace tr'
  | l :: tr' => FCall l :: seq_trace tr'
  end.





(** After [stop]: a task is submitted and the worker blocked in [pop] runs
    it. *)
Definition tr_after_stop : list label :=
  [LSubmit (mk_stub 0 [] "a"); LWorker 0 true; LWorker 0 true].

(** One task, submitted alone. *)
Definition tr_one_task : list label := [LSubmit (mk_stub 0 [] "d")].


(** ** Further definitions of [src/manager.rs] and its tests

    Used by the properties proved after the claims. *)

Definition same_core (s s' : SysState) : Prop :=
  heap s' = heap s /\ task_map s' = task_map s /\ ready_q s' = ready_q s /\
  next_handle s' = next_handle s /\ edges s' = edges s /\
  done_h s' = done_h s /\ started_h s' = started_h s.
Definition idle_worker (wk : worker) : Prop :=
  status_v wk <> Running /\
  (wpc wk = WStart \/ wpc wk = WLoop \/ wpc wk = WWait \/ wpc wk = WExited).

Definition never_run (s : SysState) : Prop :=
  mgr_status s <> Running /\ started_h s = [] /\ done_h s = [] /\ files s = [] /\
  forall w wk, threads s !! w = Some wk -> idle_worker wk.

(** The loop of the tests: [for i in 0..n { manager.submit(task_i) }]. *)
Fixpoint submit_all (s : SysState) (ts : list Task) : SysState :=
  match ts with
  | [] => s
  | t :: ts' => submit_all (submit s t).2 ts'
  end.
Definition tr_not_run : list label :=
  [LSubmit (mk_stub 0 [] "a"); LWorker 0 true; LWorker 0 true; LStop;
   LWorker 0 true].

(** The tasks of [stop_test_no_dep] and [run_test_no_dep]. *)
Definition no_dep_tasks (n : nat) : list Task :=
  map (fun i => mk_stub i [101; 102; 103] "wwt") (seq 0 n).

(** The tasks of [run_test_with_dep]. *)
Definition chain_tasks (n : nat) : list Task :=
  map (fun i => mk_stub i (if Nat.eqb i 0 then [] else [i - 1]) "wwt") (seq 0 n).

(** ** [SPMCQueue] of [src/spmc_queue.rs]

    The deque behind the mutex, front first.  Both methods run entirely under
    the lock, so each is one atomic step; a [pop] on an empty queue waits on
    the condition variable and is not enabled until a [push]. *)
Module SPMCQueue.
Section Queue.
Context {A : Type}.

(** [push]: [push_back] then [notify_one]. *)
Definition push (q : list A) (x : A) : list A := q ++ [x].

Inductive pop_result :=
  | Blocked                       (* waiting in [cond_var.wait] *)
  | Popped (x : A) (q : list A)   (* [Ok(t)] *)
  | QueueEmpty.                   (* [Err(anyhow!("Queue is empty"))] *)

(** [pop]: wait while empty, then [pop_front]. *)
Definition pop (q : list A) : pop_result :=
  if bool_decide (q = []) then Blocked
  else match q with
       | [] => QueueEmpty
       | x :: q' => Popped x q'
       end.

(** Operations of the producer and of consumer [c]. *)
Inductive op := Push (x : A) | Pop (c : nat).

Inductive run_result :=
  | RBlocked                                  (* a pop waits on an empty queue *)
  | RFailed                                   (* a pop returned [Err] *)
  | RDone (out : list (nat * A)) (q : list A). (* consumer and value of each pop *)

(** Operations applied one after another, as the mutex serialises them. *)
Fixpoint run_ops (q : list A) (ops : list op) : run_result :=
  match ops with
  | [] => RDone [] q
  | Push x :: ops' => run_ops (push q x) ops'
  | Pop c :: ops' =>
      match pop q with
      | Blocked => RBlocked
      | QueueEmpty => RFailed
      | Popped x q' =>
          match run_ops q' ops' with
          | RDone out qf => RDone ((c, x) :: out) qf
          | r => r
          end
      end
  end.

Fixpoint pushed (ops : list op) : list A :=
  match ops with
  | [] => []
  | Push x :: ops' => x :: pushed ops'
  | Pop _ :: ops' => pushed ops'
  end.

Fixpoint pops (ops : list op) : nat :=
  match ops with
  | [] => 0
  | Push _ :: ops' => pops ops'
  | Pop _ :: ops' => S (pops ops')
  end.
End Queue.
Arguments op : clear implicits.
End SPMCQueue.

(** ** The terminal front end of [src/main.rs]

    Text is a list of Unicode scalar values, as [str::chars] yields them;
    numbers parsed as [usize] are [N] (a 64-bit target).  The drawing calls
    only lay out widgets; what they do to the state is modelled: indexing
    ([item_list[idx]], [chunk[i]]) and [render_popup].  I/O errors of
    [terminal.draw] and [event::read] are not modelled. *)
Module TUI.

(** [char::is_whitespace]: the White_Space property of Unicode. *)
Definition is_ws (c : N) : bool :=
  ((9 <=? c) && (c <=? 13))%N || (c =? 32)%N || (c =? 133)%N || (c =? 160)%N ||
  (c =? 5760)%N || ((8192 <=? c) && (c <=? 8202))%N || (c =? 8232)%N ||
  (c =? 8233)%N || (c =? 8239)%N || (c =? 8287)%N || (c =? 12288)%N.

Fixpoint trim_start (s : list N) : list N :=
  match s with
  | [] => []
  | c :: s' => if is_ws c then trim_start s' else s
  end.

Fixpoint trim_end (s : list N) : list N :=
  match s with
  | [] => []
  | c :: s' =>
      match trim_end s' with
      | [] => if is_ws c then [] else [c]
      | r => c :: r
      end
  end.

(** [str::trim] *)
Definition trim (s : list N) : list N := trim_end (trim_start s).

(** [str::split(",")]: always at least one piece. *)
Fixpoint split_comma (s : list N) : list (list N) :=
  match s with
  | [] => [[]]
  | c :: s' =>
      let ps := split_comma s' in
      if (c =? 44)%N then [] :: ps
      else match ps with
           | p :: ps' => (c :: p) :: ps'
           | [] => [[c]]
           end
  end.

(** The digit loop of [usize::from_str_radix(_, 10)] with checked
    multiplication and addition. *)
Fixpoint parse_digits (acc : N) (s : list N) : option N :=
  match s with
  | [] => Some acc
  | c :: s' =>
      if ((48 <=? c) && (c <=? 57))%N then
        let v := (acc * 10 + (c - 48))%N in
        if (v <? 2 ^ 64)%N then parse_digits v s' else None
      else None
  end.

(** [str::parse::<usize>]: empty input and a lone sign are errors, a leading
    [+] is accepted, anything else must be digits. *)
Definition parse_usize (s : list N) : option N :=
  match s with
  | [] => None
  | [c] => if ((c =? 43) || (c =? 45))%N then None else parse_digits 0 [c]
  | c :: s' => if (c =? 43)%N then parse_digits 0 s' else parse_digits 0 s
  end.

(** [collect::<Result<Vec<usize>, _>>()]: the first error wins. *)
Fixpoint collect_parse (ps : list (list N)) : option (list N) :=
  match ps with
  | [] => Some []
  | p :: ps' =>
      match parse_usize (trim p) with
      | None => None
      | Some n => match collect_parse ps' with
                  | None => None
                  | Some ns => Some (n :: ns)
                  end
      end
  end.

(** [deps_id.trim().split(",").map(|id| id.trim().parse::<usize>()).collect()] *)
Definition parse_deps (s : list N) : option (list N) :=
  collect_parse (split_comma (trim s)).

(** [tui_input::Input]: its value and cursor. *)
Record Input := mkInput { value : list N; cursor : nat }.

(** [Input::reset] *)
Definition input_reset (i : Input) : Input := mkInput [] 0.

Record Popup := mkPopup { title : string; content : string }.

Record Form := mkForm { inputs : list Input; fidx : nat; popup : option Popup }.

(** [Form::new] *)
Definition form_new : Form :=
  mkForm [mkInput [] 0; mkInput [] 0; mkInput [] 0] 0 None.

Definition set_popup (f : Form) (p : Popup) : Form :=
  mkForm (inputs f) (fidx f) (Some p).

Definition name_error : Popup := mkPopup "Error" "Task name cannot be empty".
Definition file_error : Popup := mkPopup "Error" "Exec File cannot be empty".
Definition deps_error : Popup := mkPopup "Error" "Deps id is not valid".

(** [Form::finish_input]; [None] is a panic of [assert_eq!]. *)
Definition finish_input (f : Form) : option Form :=
  match inputs f with
  | [i0; i1; i2] =>
      let task_name := value i0 in
      let deps_id := value i1 in
      let exec_file := value i2 in
      if bool_decide (trim task_name = []) then Some (set_popup f name_error)
      else if bool_decide (trim exec_file = []) then Some (set_popup f file_error)
      else match parse_deps deps_id with
           | None => Some (set_popup f deps_error)
           | Some _ => Some (mkForm (map input_reset (inputs f)) (fidx f) (popup f))
           end
  | _ => None
  end.

(** [select_up] and [select_down] of [SelectList] and of [Form], on the index
    and the length of the list; [None] is the panic of [len() - 1] on an
    empty list (debug build). *)
Definition select_up (idx len : nat) : option nat :=
  if Nat.eqb idx 0 then (if Nat.eqb len 0 then None else Some (len - 1))
  else Some (idx - 1).

Definition select_down (idx len : nat) : option nat :=
  if Nat.eqb len 0 then None
  else if Nat.eqb idx (len - 1) then Some 0 else Some (idx + 1).

Inductive Item := Run | TaskInfo | AddTask | RemoveTask.

#[global] Instance Item_eq_dec : EqDecision Item.
Proof. solve_decision. Defined.

Inductive State := Left | Right | HasPop.

#[global] Instance State_eq_dec : EqDecision State.
Proof. solve_decision. Defined.

(** The key codes the application tells apart; [KOther k] stands for every
    other code of [crossterm::event::KeyCode]. *)
Inductive KeyCode := KEsc | KUp | KDown | KLeft | KRight | KEnter | KOther (k : nat).

(** [Event::Key] with whether its kind is [Press]; [ENoKey] for mouse,
    resize and the other events. *)
Inductive Event := EKey (code : KeyCode) (press : bool) | ENoKey.

(** The [App] fields the key handling reads or writes; [task_manager] is not
    touched by any of them. *)
Record App := mkApp {
  state : State;
  running : bool;
  item_list : list Item;
  idx : nat;
  form : Form
}.

Definition set_state (a : App) (st : State) : App :=
  mkApp st (running a) (item_list a) (idx a) (form a).

Definition set_form (a : App) (f : Form) : App :=
  mkApp (state a) (running a) (item_list a) (idx a) f.

Definition set_idx (a : App) (i : nat) : App :=
  mkApp (state a) (running a) (item_list a) i (form a).

(** [App::new]: [Self::default()] with the four menu items. *)
Definition app_new : App :=
  mkApp Left false [AddTask; RemoveTask; TaskInfo; Run] 0 form_new.

Section Keys.
(** [Input::handle_event] of the [tui_input] crate, for a key. *)
Variable handle_input : KeyCode -> Input -> Input.

(** [App::select_up] / [App::select_down]: only in state [Left]. *)
Definition app_select_up (a : App) : option App :=
  match state a with
  | Left => i ← select_up (idx a) (length (item_list a)); Some (set_idx a i)
  | _ => Some a
  end.

Definition app_select_down (a : App) : option App :=
  match state a with
  | Left => i ← select_down (idx a) (length (item_list a)); Some (set_idx a i)
  | _ => Some a
  end.

Definition form_select (f : Form) (sel : nat -> nat -> option nat) : option Form :=
  i ← sel (fidx f) (length (inputs f)); Some (mkForm (inputs f) i (popup f)).

(** [App::right_key_event]; [None] is a panic of an index out of range. *)
Definition right_key_event (a : App) (k : KeyCode) : option App :=
  match item_list a !! idx a with
  | None => None
  | Some AddTask =>
      match k with
      | KEsc => Some (set_state a Left)
      | KEnter => f ← finish_input (form a); Some (set_form a f)
      | KUp => f ← form_select (form a) select_up; Some (set_form a f)
      | KDown => f ← form_select (form a) select_down; Some (set_form a f)
      | _ =>
          match inputs (form a) !! fidx (form a) with
          | None => None
          | Some i =>
              Some (set_form a (mkForm (<[fidx (form a) := handle_input k i]> (inputs (form a)))
                                  (fidx (form a)) (popup (form a))))
          end
      end
  | Some _ => Some a
  end.

(** [App::pop_down] *)
Definition pop_down (a : App) : App :=
  mkApp Right (running a) (item_list a) (idx a)
    (mkForm (inputs (form a)) (fidx (form a)) None).

(** [App::on_key_event] *)
Definition on_key_event (a : App) (k : KeyCode) : option App :=
  match state a with
  | Left =>
      match k with
      | KEsc => Some (mkApp (state a) false (item_list a) (idx a) (form a))
      | KUp => app_select_up a
      | KDown => app_select_down a
      | KLeft => Some (set_state a Left)
      | KRight => Some (set_state a Right)
      | _ => Some a
      end
  | Right => right_key_event a k
  | HasPop => Some (pop_down a)
  end.

(** [App::handle_crossterm_events]: only key presses are handled. *)
Definition handle_event (a : App) (e : Event) : option App :=
  match e with
  | EKey k true => on_key_event a k
  | _ => Some a
  end.

(** [App::render]: [right_content] indexes [item_list] and, for [AddTask],
    [render_form] indexes the three layout chunks by input; then
    [render_popup] enters [HasPop] when a popup is set. *)
Definition render (a : App) : option App :=
  match item_list a !! idx a with
  | None => None
  | Some it =>
      if bool_decide (it = AddTask) && (3 <? length (inputs (form a)))
      then None
      else match popup (form a) with
           | Some _ => Some (set_state a HasPop)
           | None => Some a
           end
  end.

(** The loop of [App::run] over a sequence of input events. *)
Fixpoint run_events (a : App) (evs : list Event) : option App :=
  match evs with
  | [] => Some a
  | e :: evs' =>
      if running a then
        match render a with
        | None => None
        | Some a1 =>
            match handle_event a1 e with
            | None => None
            | Some a2 => run_events a2 evs'
            end
        end
      else Some a
  end.

(** [App::run]: sets [running], then loops. *)
Definition app_run (a : App) (evs : list Event) : option App :=
  run_events (mkApp (state a) true (item_list a) (idx a) (form a)) evs.
End Keys.
(** *** Helpers of the properties of the front end *)

(** Decimal rendering of a number, as [usize::to_string] writes it. *)
Fixpoint dec_digits (fuel : nat) (n : N) : list N :=
  match fuel with
  | O => []
  | S f => (if (n <? 10)%N then [] else dec_digits f (n / 10)) ++ [(48 + n mod 10)%N]
  end.

Definition show_usize (n : N) : list N := dec_digits 20 n.

Fixpoint join_with (sep : list N) (ps : list (list N)) : list N :=
  match ps with
  | [] => []
  | [p] => p
  | p :: ps' => p ++ sep ++ join_with sep ps'
  end.

Definition is_digit (c : N) : Prop := (48 <= c <= 57)%N.

(** The shape the key handling relies on. *)
Definition ui_ok (a : App) : Prop :=
  length (item_list a) = 4 /\ idx a < 4 /\ length (inputs (form a)) = 3 /\
  fidx (form a) < 3 /\ (state a = HasPop -> is_Some (popup (form a))).

Definition form_blank_deps : Form :=
  mkForm [mkInput [116%N] 1; mkInput [32%N; 9%N] 2; mkInput [102%N] 1] 1 None.

(** Where [Down] then [Right] from the start screen lead. *)
Definition stuck_app : App :=
  mkApp Right true [AddTask; RemoveTask; TaskInfo; Run] 1 form_new.

End TUI.

(** * Proofs *)

(** ** Counterexamples and evaluations at concrete inputs *)

(** (C1) Claim: a task never starts before any task it declared as a
    dependency has completed.  Refuted: B (id 1) depends on A; A completes,
    which releases B and removes it from the registry; C (id 2) declares a
    dependency on B, finds no registry entry and is enqueued at once; with
    two workers C is dequeued while B is still executing.  Every [submit]
    of the trace runs back to back. *)


(** (C2) Claim: a task whose resulting in-degree is not zero is not
    enqueued.  Refuted: a task built with [in_degree: 1] and no dependency
    is enqueued, its in-degree staying 1. *)
Lemma C2_initial_degree_cex :
  ~ (forall s t s' t', submit s t = (ROk, s') ->
       heap s' !! next_handle s = Some t' -> in_degree t' <> 0 ->
       ready_q s' = ready_q s).
Proof.
  intros H.
  specialize (H (init 1) task_with_degree _ task_with_degree eq_refl
                ltac:(vm_compute; reflexivity) ltac:(discriminate)).
  vm_compute in H. discriminate.
Qed.

(** (C3) Evaluation at the failing input: D (id 0) is dequeued with an
    empty [next] list; T (id 1) is then submitted with a dependency on D,
    which is still in the registry, so the registry's record of D gets
    [next = [1]] and T gets in-degree 1.  D's completion block iterates the
    copy taken at dequeue: T stays in the registry with in-degree 1 and is
    never enqueued. *)
Lemma C3_stale_next_eval :
  exists s_pre s_post tD tT,
    run_trace (init 1) tr_late_dependent = Some s_pre /\
    heap s_pre !! 0 = Some tD /\ next tD = [1] /\
    worker_step s_pre 0 true = Some s_post /\
    0 ∈ done_h s_post /\ task_map s_post !! 1 = Some 1 /\
    heap s_post !! 1 = Some tT /\ in_degree tT = 1 /\ ready_q s_post = [].
Proof.
  do 4 eexists.
  split; [vm_compute; reflexivity|].
  split; [vm_compute; reflexivity|]. split; [reflexivity|].
  split; [vm_compute; reflexivity|].
  split; [vm_compute; set_solver|].
  split; [vm_compute; reflexivity|].
  split; [vm_compute; reflexivity|]. split; reflexivity.
Qed.

(** (C5) Claim: when [shutdown] returns successfully no worker runs.
    Refuted: a worker busy with a task is left busy. *)
Lemma C5_no_join_cex :
  ~ (forall n s s', reachable n s -> shutdown s = (ROk, s') ->
       forall w wk, threads s' !! w = Some wk ->
       wpc wk = WExited \/ wpc wk = WFailed).
Proof.
  intros H.
  destruct (run_trace (init 1) tr_busy) as [s|] eqn:E;
    [|vm_compute in E; discriminate].
  assert (Hr : reachable 1 s) by (exists tr_busy; exact E).
  eval_trace E.
  specialize (H _ _ _ Hr eq_refl 0 _ eq_refl).
  simpl in H. destruct H; discriminate.
Qed.

(** (C6) Evaluation at the failing input: one worker; after [run] it reads
    Running and blocks in [pop] on the empty queue.  After [stop], and after
    [shutdown], it has no step: neither call pushes onto the queue, which is
    what [pop] waits for.  After [stop] a task is submitted; the worker
    dequeues and completes it while the manager is Stopped, and goes on
    holding Running.  After a further [shutdown] the worker is back in [pop]
    on the empty queue, still holding Running, with no step: it never
    exits. *)
Lemma C6_running_worker_eval :
  exists fs0 fs1 fs2,
    frun_trace (finit 1) (seq_trace tr_idle) = Some fs0 /\
    threads (fsys fs0) !! 0 = Some (mkWorker Running WPop) /\
    ready_q (fsys fs0) = [] /\
    (forall l b, l = LStop \/ l = LShutdown ->
       frun_trace fs0 [FCall l; FCall (LWorker 0 b)] = None) /\
    frun_trace fs0 (FCall LStop :: seq_trace tr_after_stop) = Some fs1 /\
    mgr_status (fsys fs1) = Stopped /\ done_h (fsys fs1) = [0] /\
    threads (fsys fs1) !! 0 = Some (mkWorker Running WLoop) /\
    frun_trace fs1 [FCall LShutdown; FCall (LWorker 0 true)] = Some fs2 /\
    mgr_status (fsys fs2) = Shutdown /\
    threads (fsys fs2) !! 0 = Some (mkWorker Running WPop) /\
    ready_q (fsys fs2) = [] /\
    (forall b, frun_trace fs2 [FCall (LWorker 0 b)] = None).
Proof.
  destruct (frun_trace (finit 1) (seq_trace tr_idle)) as [fs0|] eqn:E0;
    [|vm_compute in E0; discriminate].
  destruct (frun_trace fs0 (FCall LStop :: seq_trace tr_after_stop)) as [fs1|] eqn:E1;
    [|eval_trace E0; vm_compute in E1; discriminate].
  destruct (frun_trace fs1 [FCall LShutdown; FCall (LWorker 0 true)]) as [fs2|] eqn:E2;
    [|eval_trace E0; eval_trace E1; vm_compute in E2; discriminate].
  exists fs0, fs1, fs2. split; [reflexivity|].
  eval_trace E0. do 2 (split; [reflexivity|]).
  split; [intros l b [-> | ->]; destruct b; vm_compute; reflexivity|].
  split; [exact E1|]. eval_trace E1. do 3 (split; [reflexivity|]).
  split; [exact E2|]. eval_trace E2. do 3 (split; [reflexivity|]).
  intros b. destruct b; vm_compute; reflexivity.
Qed.

(** (C7) Claim: after a failed execution the worker still runs the
    completion update and goes on.  Refuted: A's output write fails; the
    worker ends with A still in the registry. *)
Lemma C7_failure_kills_worker_cex :
  ~ (forall n s w v h t s', reachable n s ->
       threads s !! w = Some (mkWorker v (WBusy h t)) ->
       worker_step s w false = Some s' ->
       task_map s' !! id t = None /\
       exists v', threads s' !! w = Some (mkWorker v' WLoop)).
Proof.
  intros H.
  destruct (run_trace (init 1) (take 6 tr_failing)) as [s|] eqn:E;
    [|vm_compute in E; discriminate].
  assert (Hr : reachable 1 s) by (exists (take 6 tr_failing); exact E).
  eval_trace E.
  destruct (H _ _ 0 Running 0 _ _ Hr
              eq_refl eq_refl) as [Hm _].
  vm_compute in Hm. discriminate.
Qed.

(** (C9) Claim: a completed real-mode task leaves a file [<name>_STDOUT].
    Refuted: the real-mode task completes and no file is written. *)
Lemma C9_real_mode_no_output_cex :
  ~ (forall n s h t, reachable n s -> h ∈ done_h s -> heap s !! h = Some t ->
       test t = false ->
       exists dir, (dir ++ name t ++ "_STDOUT")%string ∈ files s).
Proof.
  intros H.
  destruct (run_trace (init 1) tr_real) as [s|] eqn:E;
    [|vm_compute in E; discriminate].
  assert (Hr : reachable 1 s) by (exists tr_real; exact E).
  eval_trace E.
  destruct (H _ _ 0 (mk_real 0 []) Hr ltac:(set_solver)
              ltac:(vm_compute; reflexivity) eq_refl) as [dir Hd].
  simpl in Hd. set_solver.
Qed.


(** ** Basic facts about the embedding *)

Lemma set_in_degree_same (t : Task) : set_in_degree t (in_degree t) = t.
Proof. by destruct t. Qed.

Lemma set_in_degree_twice (t : Task) a b :
  set_in_degree (set_in_degree t a) b = set_in_degree t b.
Proof. by destruct t. Qed.

Lemma push_many_push (k x : nat) (t : Task) :
  push_many k x (push_next x t) = push_many (S k) x t.
Proof. unfold push_many. by rewrite Nat.iter_succ_r. Qed.

Lemma is_ready_loop_spec tm h deps : forall t hp rdy eds,
  let P := present tm deps in
  let '(t', hp', rdy', eds') := is_ready_loop tm h deps t hp rdy eds in
  t' = set_in_degree t (in_degree t + length P) /\
  (forall x, hp' !! x = push_many (length (filter (fun y => y = x) P)) (id t)
                          <$> hp !! x) /\
  rdy' = (rdy && bool_decide (P = []))%bool /\
  eds' = eds ++ map (pair h) P.
Proof.
  induction deps as [|dep rest IH]; intros t hp rdy eds; simpl.
  - rewrite Nat.add_0_r, set_in_degree_same. split; [done|].
    split; [intros x; by destruct (hp !! x)|].
    split; [by destruct rdy|]. by rewrite app_nil_r.
  - unfold present; simpl. destruct (tm !! dep) as [hd|] eqn:Ed; simpl.
    + specialize (IH (set_in_degree t (S (in_degree t)))
                     (alter (push_next (id t)) hd hp) false (eds ++ [(h, hd)])).
      destruct (is_ready_loop _ _ _ _ _ _ _) as [[[t' hp'] rdy'] eds'].
      destruct IH as (-> & Hhp & -> & ->). unfold present in *. simpl.
      split; [rewrite set_in_degree_twice; f_equal; simpl; lia|].
      split; [|split; [by rewrite andb_false_r|by rewrite <- app_assoc]].
      intros x. rewrite Hhp. simpl.
      destruct (decide (hd = x)) as [->|Hne].
      * rewrite lookup_alter_eq. rewrite filter_cons_True by done.
        destruct (hp !! x); simpl; [by rewrite push_many_push|done].
      * rewrite lookup_alter_ne by done. rewrite filter_cons_False by done.
        done.
    + apply IH.
Qed.

Lemma complete_block_frame s t s' :
  complete_block s t = Some s' ->
  mgr_status s' = mgr_status s /\ threads s' = threads s /\
  files s' = files s /\ edges s' = edges s /\ done_h s' = done_h s /\
  started_h s' = started_h s /\ next_handle s' = next_handle s.
Proof.
  unfold complete_block.
  destruct (release _ _ _ _ _) as [[[hp q] rl]|]; [|done].
  intros [= <-]. done.
Qed.

Lemma lookup_set_thread_eq s w wk wk0 :
  threads s !! w = Some wk0 -> threads (set_thread s w wk) !! w = Some wk.
Proof.
  intros Hw. simpl. apply list_lookup_insert_eq.
  by apply lookup_lt_is_Some_1.
Qed.

(** ** Submission and lifecycle *)

(** Effect of a successful [submit]. *)
Lemma submit_shape (s : SysState) (t : Task)
    (Hst : mgr_status s <> Shutdown) :
  let h := next_handle s in
  let P := present (task_map s) (depend t) in
  exists s', submit s t = (ROk, s') /\
    heap s' !! h = Some (set_in_degree t (in_degree t + length P)) /\
    (forall x, x <> h ->
       heap s' !! x = push_many (length (filter (fun y => y = x) P)) (id t)
                        <$> heap s !! x) /\
    ready_q s' = (if bool_decide (P = []) then ready_q s ++ [h] else ready_q s) /\
    task_map s' = <[id t := h]> (task_map s) /\
    edges s' = edges s ++ map (pair h) P.
Proof.
  intros h P. unfold submit.
  assert (Hir : let '(t', hp', rdy', eds') :=
                  is_ready (task_map s) h t (heap s) (edges s) in
                t' = set_in_degree t (in_degree t + length P) /\
                (forall x, hp' !! x = push_many (length (filter (fun y => y = x) P))
                                        (id t) <$> heap s !! x) /\
                rdy' = bool_decide (P = []) /\ eds' = edges s ++ map (pair h) P).
  { unfold is_ready, P, present. destruct (depend t) as [|d ds] eqn:Ed.
    - simpl. rewrite Nat.add_0_r, set_in_degree_same, app_nil_r.
      split; [done|]. split; [intros x; by destruct (heap s !! x)|done].
    - pose proof (is_ready_loop_spec (task_map s) h (d :: ds) t (heap s) true
                    (edges s)) as Hl.
      destruct (is_ready_loop _ _ _ _ _ _ _) as [[[t' hp'] rdy'] eds'].
      exact Hl. }
  destruct (is_ready _ _ _ _ _) as [[[t' hp'] rdy'] eds'].
  destruct Hir as (-> & Hhp & -> & ->).
  destruct (mgr_status s) eqn:Es; [| |done];
    (eexists; split; [reflexivity|]); simpl;
    (split; [by rewrite lookup_insert_eq|]);
    (split; [intros x Hx; rewrite lookup_insert_ne by done; apply Hhp|]);
    done.
Qed.

(** (C2, amended) In state Running or Stopped, [submit] gives the new task
    (handle [next_handle s]) its own in-degree plus one per dependency id
    found in the registry; every dependency found gets the new id appended
    to its [next] list once per occurrence, absent ids change nothing; the
    task is enqueued exactly when no dependency was found (for a task built
    with in-degree 0: exactly when its resulting in-degree is 0), and it is
    entered in the registry in both cases. *)
Theorem C2_submit_registers (s : SysState) (t : Task)
    (Hst : mgr_status s <> Shutdown) :
  let h := next_handle s in
  let P := present (task_map s) (depend t) in
  exists s', submit s t = (ROk, s') /\
    heap s' !! h = Some (set_in_degree t (in_degree t + length P)) /\
    (forall x, x <> h ->
       heap s' !! x = push_many (length (filter (fun y => y = x) P)) (id t)
                        <$> heap s !! x) /\
    ready_q s' = (if bool_decide (P = []) then ready_q s ++ [h] else ready_q s) /\
    task_map s' = <[id t := h]> (task_map s) /\
    edges s' = edges s ++ map (pair h) P.
Proof. exact (submit_shape s t Hst). Qed.

Lemma C2_submit_registers_witness :
  mgr_status (init 1) <> Shutdown /\
  exists s', submit (init 1) (mk_stub 0 [] "a") = (ROk, s') /\
    heap s' !! 0 = Some (set_in_degree (mk_stub 0 [] "a") (0 + 0)) /\
    (forall x, x <> 0 ->
       heap s' !! x = push_many 0 0 <$> heap (init 1) !! x) /\
    ready_q s' = [0] /\
    task_map s' = <[0 := 0]> (task_map (init 1)) /\ edges s' = [].
Proof.
  split; [discriminate|].
  apply (C2_submit_registers (init 1) (mk_stub 0 [] "a")). discriminate.
Defined.

(** Status is [Shutdown] forever once reached. *)
Lemma step_keeps_shutdown s l s' :
  mgr_status s = Shutdown -> step s l = Some s' -> mgr_status s' = Shutdown.
Proof.
  intros Hs. destruct l as [t| | | |w b]; simpl.
  - intros [= <-]. unfold submit. by rewrite Hs.
  - intros [= <-]. unfold run, lift_status. by rewrite Hs.
  - intros [= <-]. unfold stop, lift_status. by rewrite Hs.
  - intros [= <-]. unfold shutdown, lift_status. by rewrite Hs.
  - unfold worker_step.
    destruct (threads s !! w) as [[v p]|]; [|done].
    destruct p as [| | | |h t| |]; try done;
      try (intros [= <-]; done).
    + destruct v; intros [= <-]; done.
    + unfold pop_step. destruct (ready_q s) as [|h q]; [done|].
      destruct (heap s !! h); [|done]. intros [= <-]. done.
    + unfold finish_step.
      destruct (test t), b;
        try (destruct (complete_block _ t) as [s2|] eqn:Ec; [|done];
             apply complete_block_frame in Ec as (Hm & _);
             intros [= <-]; simpl in *; congruence).
      intros [= <-]. done.
Qed.

Lemma run_trace_keeps_shutdown tr : forall s s',
  mgr_status s = Shutdown -> run_trace s tr = Some s' -> mgr_status s' = Shutdown.
Proof.
  induction tr as [|l tr IH]; simpl; intros s s' Hs.
  - by intros [= <-].
  - destruct (step s l) as [s1|] eqn:E; [|done].
    apply IH. by eapply step_keeps_shutdown.
Qed.

Lemma set_status_same s : set_status s (mgr_status s) = s.
Proof. by destruct s. Qed.

(** (C4) [run] takes Stopped to Running and is a no-op in Running; [stop]
    takes Running to Stopped and is a no-op in Stopped; both fail in
    Shutdown; after a successful [shutdown], whatever happens next (any
    submissions, lifecycle calls and worker steps), the status is still
    Shutdown and [run], [stop] and [shutdown] all fail and change nothing. *)
Theorem C4_lifecycle (s s1 s2 : SysState) (tr : list label)
    (Hsd : shutdown s = (ROk, s1)) (Htr : run_trace s1 tr = Some s2) :
  run_status Stopped = (ROk, Running) /\ run_status Running = (ROk, Running) /\
  stop_status Running = (ROk, Stopped) /\ stop_status Stopped = (ROk, Stopped) /\
  run_status Shutdown = (RStateError, Shutdown) /\
  stop_status Shutdown = (RStateError, Shutdown) /\
  mgr_status s2 = Shutdown /\
  run s2 = (RStateError, s2) /\ stop s2 = (RStateError, s2) /\
  shutdown s2 = (RStateError, s2).
Proof.
  assert (H1 : mgr_status s1 = Shutdown).
  { revert Hsd. unfold shutdown, lift_status.
    destruct (mgr_status s); simpl; intros Heq; inversion Heq; done. }
  pose proof (run_trace_keeps_shutdown tr s1 s2 H1 Htr) as H2.
  do 7 (split; [done|]).
  unfold run, stop, shutdown, lift_status. rewrite H2.
  simpl. rewrite <- H2, set_status_same. done.
Qed.

Lemma C4_lifecycle_witness :
  exists s2,
    shutdown (init 1) = (ROk, (shutdown (init 1)).2) /\
    run_trace (shutdown (init 1)).2
      [LRun; LStop; LSubmit (mk_stub 0 [] "a"); LWorker 0 true] = Some s2 /\
    mgr_status s2 = Shutdown /\ run s2 = (RStateError, s2).
Proof.
  destruct (run_trace (shutdown (init 1)).2
      [LRun; LStop; LSubmit (mk_stub 0 [] "a"); LWorker 0 true]) as [s2|] eqn:E;
    [|vm_compute in E; discriminate].
  exists s2. split; [reflexivity|]. split; [reflexivity|].
  pose proof (C4_lifecycle (init 1) _ _ _ eq_refl E) as H.
  split; apply H.
Defined.

(** (C8) In state Shutdown [submit] fails with a StateError and returns the
    state untouched: registry, heap, in-degrees, [next] lists and queue. *)
Theorem C8_submit_after_shutdown (s : SysState) (t : Task)
    (Hs : mgr_status s = Shutdown) :
  submit s t = (RStateError, s).
Proof. unfold submit. by rewrite Hs. Qed.

Lemma C8_submit_after_shutdown_witness :
  mgr_status (shutdown (init 1)).2 = Shutdown /\
  submit (shutdown (init 1)).2 (mk_stub 0 [] "a")
    = (RStateError, (shutdown (init 1)).2).
Proof.
  split; [reflexivity|]. apply C8_submit_after_shutdown. reflexivity.
Defined.

(** ** Workers *)

(** (C5, amended) In Running or Stopped, [shutdown] sets the status to
    Shutdown and returns success at once: it joins no worker, and the
    workers, the queue and the registry are left as they were. *)
Theorem C5_shutdown_returns_at_once (s : SysState)
    (Hs : mgr_status s <> Shutdown) :
  exists s', shutdown s = (ROk, s') /\ mgr_status s' = Shutdown /\
    threads s' = threads s /\ ready_q s' = ready_q s /\
    task_map s' = task_map s /\ heap s' = heap s.
Proof.
  unfold shutdown, lift_status.
  destruct (mgr_status s) eqn:E; [| |done]; eexists; done.
Qed.

Lemma C5_shutdown_returns_at_once_witness :
  exists s', run_trace (init 1) tr_busy = Some s' /\ mgr_status s' <> Shutdown /\
    exists s'', shutdown s' = (ROk, s'') /\ mgr_status s'' = Shutdown /\
      threads s'' = threads s' /\ ready_q s'' = ready_q s' /\
      task_map s'' = task_map s' /\ heap s'' = heap s'.
Proof.
  destruct (run_trace (init 1) tr_busy) as [s'|] eqn:E;
    [|vm_compute in E; discriminate].
  assert (Hs : mgr_status s' <> Shutdown) by (eval_trace E; discriminate).
  exists s'. split; [reflexivity|]. split; [exact Hs|].
  apply C5_shutdown_returns_at_once. exact Hs.
Defined.

(** (C7, amended) A stub-mode task whose output write fails ends its
    worker: [task_test_run]'s error leaves the thread through [?] before the
    completion block, so the registry, the heap (in-degrees) and the queue
    are unchanged, the task's dependents are not released, and the worker
    takes no further step.  A real-mode task has no execution step that can
    fail: its worker's step does not depend on the I/O outcome. *)
Theorem C7_failure_ends_worker (s : SysState) (w : nat) (v : ManagerStatus)
    (h : nat) (t : Task) (Hw : threads s !! w = Some (mkWorker v (WBusy h t))) :
  (test t = true ->
     worker_step s w false = Some (set_thread s w (mkWorker v WFailed)) /\
     task_map (set_thread s w (mkWorker v WFailed)) = task_map s /\
     heap (set_thread s w (mkWorker v WFailed)) = heap s /\
     ready_q (set_thread s w (mkWorker v WFailed)) = ready_q s /\
     done_h (set_thread s w (mkWorker v WFailed)) = done_h s /\
     forall b, worker_step (set_thread s w (mkWorker v WFailed)) w b = None) /\
  (test t = false -> worker_step s w false = worker_step s w true).
Proof.
  split.
  - intros Ht. unfold worker_step at 1. rewrite Hw. unfold finish_step.
    rewrite Ht. do 5 (split; [done|]). intros b.
    unfold worker_step. by erewrite lookup_set_thread_eq by exact Hw.
  - intros Ht. unfold worker_step. rewrite Hw. unfold finish_step.
    by rewrite Ht.
Qed.

Lemma C7_failure_ends_worker_witness :
  exists s, run_trace (init 1) (take 6 tr_failing) = Some s /\
    worker_step s 0 false
      = Some (set_thread s 0 (mkWorker Running WFailed)) /\
    task_map (set_thread s 0 (mkWorker Running WFailed)) = task_map s.
Proof.
  destruct (run_trace (init 1) (take 6 tr_failing)) as [s|] eqn:E;
    [|vm_compute in E; discriminate].
  assert (Hw : threads s !! 0 =
            Some (mkWorker Running (WBusy 0 (push_next 1 (mk_stub 0 [] "a")))))
    by (eval_trace E; reflexivity).
  exists s. split; [reflexivity|].
  pose proof (C7_failure_ends_worker s 0 Running 0 _ Hw) as [H _].
  destruct (H eq_refl) as (H1 & H2 & _). split; assumption.
Defined.

(** (C9, amended) Executing a real-mode task does nothing: no process is
    spawned and no file is written: the worker's step is the completion
    block followed by the end of the iteration, whatever the I/O outcome.
    Only a stub-mode task writes output, one file at its [file_name], when
    the write succeeds. *)
Theorem C9_real_mode_not_executed (s s' : SysState) (w : nat)
    (v : ManagerStatus) (h : nat) (t : Task) (b : bool)
    (Hw : threads s !! w = Some (mkWorker v (WBusy h t)))
    (Hs : worker_step s w b = Some s') :
  files s' = (if (test t && b)%bool then files s ++ [file_name t] else files s) /\
  (test t = false -> exists s2, complete_block s t = Some s2 /\
     s' = mark_done (set_thread s2 w (mkWorker v WLoop)) h).
Proof.
  revert Hs. unfold worker_step. rewrite Hw. unfold finish_step.
  destruct (test t) eqn:Ht, b; simpl;
    try (destruct (complete_block _ t) as [s2|] eqn:Ec; [|done];
         pose proof Ec as Ec';
         apply complete_block_frame in Ec as (_ & _ & Hf & _);
         intros [= <-]; simpl; rewrite Hf; split; [done|];
         intros Htf; first [by exists s2 | discriminate]).
  intros [= <-]. split; [done|discriminate].
Qed.

Lemma C9_real_mode_not_executed_witness :
  exists s s', run_trace (init 1) (take 5 tr_real) = Some s /\
    worker_step s 0 true = Some s' /\ files s' = files s /\
    exists s2, complete_block s (mk_real 0 []) = Some s2 /\
      s' = mark_done (set_thread s2 0 (mkWorker Running WLoop)) 0.
Proof.
  destruct (run_trace (init 1) (take 5 tr_real)) as [s|] eqn:E;
    [|vm_compute in E; discriminate].
  assert (Hw : threads s !! 0 = Some (mkWorker Running (WBusy 0 (mk_real 0 []))))
    by (eval_trace E; reflexivity).
  destruct (worker_step s 0 true) as [s'|] eqn:E2;
    [|eval_trace E; vm_compute in E2; discriminate].
  exists s, s'. split; [reflexivity|]. split; [exact E2|].
  destruct (C9_real_mode_not_executed s s' 0 Running 0 (mk_real 0 []) true Hw E2)
    as [Hf Hc].
  split; [exact Hf|]. exact (Hc eq_refl).
Defined.

(** ** The completion loop *)

Lemma cnt_nil tm h : cnt tm [] h = 0.
Proof. done. Qed.

Lemma cnt_cons tm i L h :
  cnt tm (i :: L) h = (if decide (tm !! i = Some h) then 1 else 0) + cnt tm L h.
Proof. unfold cnt. rewrite filter_cons. by destruct (decide _). Qed.

Lemma cnt_app tm L1 L2 h : cnt tm (L1 ++ L2) h = cnt tm L1 h + cnt tm L2 h.
Proof. unfold cnt. by rewrite filter_app, length_app. Qed.

(** If every task reached from the loop has an in-degree at least the number
    of times the loop reaches it, the assertion never fails; the loop then
    decrements each task by that number and releases exactly those whose
    in-degree equals it. *)
Lemma release_spec (tm : gmap nat nat) (L : list nat) : forall hp q rl,
  (forall h t, hp !! h = Some t -> cnt tm L h <= in_degree t) ->
  (forall i h, tm !! i = Some h -> exists t, hp !! h = Some t /\ id t = i) ->
  exists hp' q'' rl'',
    release tm L hp q rl = Some (hp', q ++ q'', rl ++ rl'') /\
    (forall h, hp' !! h =
       (fun t => set_in_degree t (in_degree t - cnt tm L h)) <$> hp !! h) /\
    (forall h, h ∈ q'' <-> exists t, hp !! h = Some t /\ 0 < cnt tm L h /\
                                     in_degree t = cnt tm L h) /\
    NoDup q'' /\
    (forall r, r ∈ rl'' -> exists h, tm !! r = Some h /\ h ∈ q'') /\
    (forall h, h ∈ q'' -> exists r, r ∈ rl'' /\ tm !! r = Some h).
Proof.
  induction L as [|i L IH]; intros hp q rl Hdeg Hid; simpl.
  - exists hp, [], []. rewrite !app_nil_r. split; [done|].
    split; [intros h; destruct (hp !! h) as [t|]; simpl; [|done];
            by rewrite Nat.sub_0_r, set_in_degree_same|].
    split; [intros h; rewrite cnt_nil; split; [set_solver|]; intros (? & _ & ?); lia|].
    split; [constructor|split; set_solver].
  - destruct (tm !! i) as [h0|] eqn:Ei.
    2:{ assert (Hc : forall h, cnt tm (i :: L) h = cnt tm L h).
        { intros h. rewrite cnt_cons. rewrite decide_False by congruence. done. }
        destruct (IH hp q rl) as (hp' & q'' & rl'' & Hrel & Hp & Hmem & Hnd & Hrl & Hrl2);
          [intros h t Ht; rewrite <- Hc; by apply Hdeg|done|].
        exists hp', q'', rl''. split; [done|].
        split; [intros h; rewrite Hc; apply Hp|].
        split; [intros h; rewrite Hc; apply Hmem|]. done. }
    destruct (Hid _ _ Ei) as (nt & Hnt & Hntid). rewrite Hnt.
    assert (Hc0 : cnt tm (i :: L) h0 = S (cnt tm L h0)).
    { rewrite cnt_cons, decide_True by done. done. }
    assert (Hcn : forall h, h <> h0 -> cnt tm (i :: L) h = cnt tm L h).
    { intros h Hh. rewrite cnt_cons, decide_False by congruence. done. }
    pose proof (Hdeg _ _ Hnt) as Hd0. rewrite Hc0 in Hd0.
    destruct (Nat.eqb_spec (in_degree nt) 0) as [E0|_]; [lia|].
    set (nt' := set_in_degree nt (in_degree nt - 1)).
    assert (Hdeg' : forall h t, <[h0 := nt']> hp !! h = Some t ->
                      cnt tm L h <= in_degree t).
    { intros h t. destruct (decide (h = h0)) as [->|Hne].
      - rewrite lookup_insert_eq. intros [= <-]. simpl. lia.
      - rewrite lookup_insert_ne by congruence. intros Ht.
        rewrite <- (Hcn h Hne). by apply Hdeg. }
    assert (Hid' : forall i' h, tm !! i' = Some h ->
                     exists t, <[h0 := nt']> hp !! h = Some t /\ id t = i').
    { intros i' h Hi'. destruct (Hid _ _ Hi') as (t & Ht & Htid).
      destruct (decide (h = h0)) as [->|Hne].
      - rewrite lookup_insert_eq. eexists; split; [done|].
        simpl. congruence.
      - rewrite lookup_insert_ne by congruence. eauto. }
    assert (Hhp : forall hp' : gmap nat Task, (forall h, hp' !! h = (fun t =>
                     set_in_degree t (in_degree t - cnt tm L h)) <$>
                     <[h0 := nt']> hp !! h) ->
                  forall h, hp' !! h = (fun t =>
                     set_in_degree t (in_degree t - cnt tm (i :: L) h)) <$> hp !! h).
    { intros hp' Hp h. rewrite Hp. destruct (decide (h = h0)) as [->|Hne].
      - rewrite lookup_insert_eq, Hnt, Hc0. simpl.
        unfold nt'. rewrite set_in_degree_twice. f_equal. f_equal. lia.
      - rewrite lookup_insert_ne by congruence. by rewrite (Hcn h Hne). }
    destruct (Nat.eqb_spec (in_degree nt') 0) as [E1|E1].
    + destruct (IH _ (q ++ [h0]) (rl ++ [id nt']) Hdeg' Hid')
        as (hp' & q'' & rl'' & Hrel & Hp & Hmem & Hnd & Hrl & Hrl2).
      simpl in E1. rewrite (proj2 (Nat.eqb_eq _ _) E1).
      assert (HL0 : cnt tm L h0 = 0) by lia.
      assert (Hnin : h0 ∉ q'').
      { intros Hin. apply Hmem in Hin as (? & _ & ? & _). lia. }
      exists hp', (h0 :: q''), (id nt' :: rl'').
      rewrite <- !app_assoc in Hrel. split; [exact Hrel|].
      split; [by apply Hhp|].
      split.
      { intros h. rewrite elem_of_cons, Hmem.
        destruct (decide (h = h0)) as [->|Hne].
        - rewrite lookup_insert_eq, Hnt, Hc0. split.
          + intros _. eexists; split; [done|]. lia.
          + intros _. by left.
        - rewrite lookup_insert_ne by congruence. rewrite (Hcn h Hne).
          split; [intros [?|?]; [done|done]|intros ?; by right]. }
      split; [by constructor|].
      split.
      * intros r. rewrite elem_of_cons. intros [->|Hr].
        -- exists h0. simpl. rewrite Hntid. split; [done|by left].
        -- destruct (Hrl r Hr) as (h & ? & ?). exists h. split; [done|by right].
      * intros h. rewrite elem_of_cons. intros [->|Hh].
        -- exists (id nt'). split; [by left|]. simpl. by rewrite Hntid.
        -- destruct (Hrl2 h Hh) as (r & ? & ?). exists r. split; [by right|done].
    + simpl in E1. rewrite (proj2 (Nat.eqb_neq _ _) E1).
      destruct (IH _ q rl Hdeg' Hid')
        as (hp' & q'' & rl'' & Hrel & Hp & Hmem & Hnd & Hrl & Hrl2).
      exists hp', q'', rl''. split; [exact Hrel|].
      split; [by apply Hhp|].
      split; [|done].
      intros h. rewrite Hmem. destruct (decide (h = h0)) as [->|Hne].
      * rewrite lookup_insert_eq, Hnt, Hc0. simpl in E1 |- *.
        split; intros (t & [= <-] & ? & ?); eexists; (split; [done|]); simpl in *; lia.
      * rewrite lookup_insert_ne by congruence. by rewrite (Hcn h Hne).
Qed.

(** ** The scheduling invariant and its preservation *)

Lemma repeat_snoc {A} (x : A) k : repeat x k ++ [x] = x :: repeat x k.
Proof. induction k as [|k IH]; simpl; [done|]. by rewrite IH. Qed.

Lemma push_many_fields k x t :
  id (push_many k x t) = id t /\ in_degree (push_many k x t) = in_degree t /\
  next (push_many k x t) = next t ++ repeat x k.
Proof.
  unfold push_many. induction k as [|k IH]; simpl.
  - by rewrite app_nil_r.
  - destruct IH as (-> & -> & ->). do 2 (split; [done|]).
    by rewrite <- app_assoc, repeat_snoc.
Qed.

Lemma cnt_ext M1 M2 L h :
  (forall i, i ∈ L -> M1 !! i = M2 !! i) -> cnt M1 L h = cnt M2 L h.
Proof.
  induction L as [|i L IH]; intros HL; [done|].
  rewrite !cnt_cons, (HL i) by set_solver. f_equal. apply IH. set_solver.
Qed.

Lemma cnt_mono M1 M2 L h :
  (forall i h', M1 !! i = Some h' -> M2 !! i = Some h') -> cnt M1 L h <= cnt M2 L h.
Proof.
  intros HM. induction L as [|i L IH]; [done|].
  rewrite !cnt_cons. destruct (decide (M1 !! i = Some h)) as [E|E].
  - destruct (decide (M2 !! i = Some h)) as [_|n]; [lia|].
    exfalso. apply n. by apply HM.
  - destruct (decide _); lia.
Qed.

Lemma cnt_pos M L h : 0 < cnt M L h -> exists i, M !! i = Some h.
Proof.
  induction L as [|i L IH]; [rewrite cnt_nil; lia|].
  rewrite cnt_cons. destruct (decide _); [eauto|]. simpl. apply IH.
Qed.

Lemma cnt_repeat M x k h :
  cnt M (repeat x k) h = if decide (M !! x = Some h) then k else 0.
Proof.
  induction k as [|k IH]; simpl; [by destruct (decide _)|].
  rewrite cnt_cons, IH. by destruct (decide _).
Qed.

Lemma cnt_prefix M L1 L2 h : L1 `prefix_of` L2 -> cnt M L1 h <= cnt M L2 h.
Proof. intros [k ->]. rewrite cnt_app. lia. Qed.

Lemma filter_len_split (E : list (nat * nat)) (dn : list nat) T D :
  D ∉ dn ->
  length (filter (fun e => e.1 = T /\ e.2 ∉ dn) E) =
  length (filter (fun e => e.1 = T /\ e.2 ∉ dn ++ [D]) E) +
  length (filter (fun e => e = (T, D)) E).
Proof.
  intros HD. induction E as [|[a b] E IH]; [done|].
  rewrite !filter_cons. simpl.
  repeat case_decide; simpl; try lia;
    try (exfalso; set_solver).
Qed.

Lemma filter_len_zero {A} (P : A -> Prop) `{forall x, Decision (P x)} (E : list A) x :
  length (filter P E) = 0 -> x ∈ E -> ~ P x.
Proof.
  induction E as [|y E IH]; [set_solver|].
  rewrite filter_cons. intros Hl. rewrite elem_of_cons.
  case_decide; simpl in Hl; [lia|]. intros [->|Hx]; auto.
Qed.

Lemma lookup_foldl_delete (rl : list nat) : forall (M : gmap nat nat) i h,
  foldl (fun m r => delete r m) M rl !! i = Some h -> M !! i = Some h /\ i ∉ rl.
Proof.
  induction rl as [|r rl IH]; simpl; intros M i h.
  - intros ?. split; [done|set_solver].
  - intros Hf. apply IH in Hf as [Hd Hn].
    apply lookup_delete_Some in Hd as [Hne Hi]. split; [done|set_solver].
Qed.

Lemma set_thread_busy s w wk w' v h t :
  (forall h t, wpc wk <> WBusy h t) ->
  threads (set_thread s w wk) !! w' = Some (mkWorker v (WBusy h t)) ->
  threads s !! w' = Some (mkWorker v (WBusy h t)) /\ w' <> w.
Proof.
  intros Hwk Hl. unfold set_thread in Hl. cbn [threads] in Hl.
  apply list_lookup_insert_Some in Hl as [(-> & -> & _)|(? & ?)].
  - exfalso. by apply (Hwk h t).
  - done.
Qed.

Lemma insert_busy_lookup (l : list worker) w wk w' v h t :
  <[w := wk]> l !! w' = Some (mkWorker v (WBusy h t)) ->
  (w' = w /\ wk = mkWorker v (WBusy h t)) \/
  (w' <> w /\ l !! w' = Some (mkWorker v (WBusy h t))).
Proof.
  rewrite list_lookup_insert_Some. intros [(-> & -> & _)|(? & ?)]; [by left|by right].
Qed.

Lemma inv_frame s s' :
  heap s' = heap s -> task_map s' = task_map s -> ready_q s' = ready_q s ->
  next_handle s' = next_handle s -> threads s' = threads s ->
  edges s' = edges s -> done_h s' = done_h s -> started_h s' = started_h s ->
  Inv s -> Inv s'.
Proof.
  destruct s, s'; simpl; intros; subst. destruct H7. constructor; assumption.
Qed.

Lemma inv_init n : Inv (init n).
Proof.
  assert (Hw : forall w v h t,
             repeat (mkWorker Stopped WStart) n !! w <> Some (mkWorker v (WBusy h t))).
  { intros w v h t Hl. apply list_elem_of_lookup_2, list_elem_of_In, repeat_spec in Hl.
    discriminate. }
  constructor; unfold pend, ecount, issued; simpl; intros *;
    rewrite ?lookup_empty; try done.
  all: try (split; [intros [? ?]; done|lia]).
  all: try (intros ?; exfalso; by eapply Hw).
  all: try apply NoDup_nil_2.
  all: set_solver.
Qed.

Lemma inv_set_status s st : Inv s -> Inv (set_status s st).
Proof. apply inv_frame; done. Qed.

Lemma inv_add_file s f : Inv s -> Inv (add_file s f).
Proof. apply inv_frame; done. Qed.

Lemma inv_set_thread s w wk :
  Inv s -> (forall h t, wpc wk <> WBusy h t) -> Inv (set_thread s w wk).
Proof.
  intros I Hwk. destruct I. constructor; try assumption.
  - intros w' v h t Hl. apply set_thread_busy in Hl as [Hl _]; [|done]. eauto.
  - intros w' v h t Hl. apply set_thread_busy in Hl as [Hl _]; [|done]. eauto.
  - intros w1 w2 v1 v2 h t1 t2 H1 H2.
    apply set_thread_busy in H1 as [H1 _]; [|done].
    apply set_thread_busy in H2 as [H2 _]; [|done]. eauto.
Qed.

Lemma inv_pop s w v s' :
  Inv s -> threads s !! w = Some (mkWorker v WPop) -> pop_step s w v = Some s' ->
  Inv s'.
Proof.
  intros I Hw. unfold pop_step.
  destruct (ready_q s) as [|h0 q] eqn:Eq; [done|].
  destruct (heap s !! h0) as [t0|] eqn:Et; [|done]. intros [= <-].
  pose proof (inv_q_nodup s I) as Hnd. rewrite Eq in Hnd.
  apply NoDup_cons in Hnd as [Hh0q Hndq].
  assert (Hh0 : (h0 ∉ started_h s) /\ h0 < next_handle s).
  { apply (inv_q s I). rewrite Eq. apply elem_of_cons. by left. }
  destruct Hh0 as [Hh0s Hh0n].
  assert (Hiss : forall hT, hT ∈ q \/ hT ∈ started_h s ++ [h0] -> issued s hT).
  { intros hT. unfold issued. rewrite Eq, elem_of_cons, elem_of_app,
      list_elem_of_singleton. tauto. }
  destruct I as [Hdom Hmap Hnids Hncnt Hedges Hsnap Hdeg Hbusy Huniq Hqnd Hq Hst
    Hdone Hfe Hord].
  constructor; unfold pend, ecount, issued in *; cbn [heap task_map
    ready_q next_handle threads edges done_h started_h] in *; try assumption.
  - intros w' v' h t Hl. apply insert_busy_lookup in Hl as [[-> E]|[_ Hl]].
    + simplify_eq. eexists. split; [eassumption|]. done.
    + eauto.
  - intros w' v' h t Hl. apply insert_busy_lookup in Hl as [[-> E]|[_ Hl]].
    + simplify_eq. rewrite elem_of_app, list_elem_of_singleton.
      split; [by right|]. intros Hd. by apply Hh0s, Hdone.
    + destruct (Hbusy _ _ _ _ Hl) as [Hs Hd]. rewrite elem_of_app. tauto.
  - intros w1 w2 v1 v2 h t1 t2 H1 H2.
    apply insert_busy_lookup in H1 as [[-> E1]|[_ H1]];
    apply insert_busy_lookup in H2 as [[-> E2]|[_ H2]]; try done;
      simplify_eq.
    + exfalso. apply Hh0s. by destruct (Hbusy _ _ _ _ H2).
    + exfalso. apply Hh0s. by destruct (Hbusy _ _ _ _ H1).
    + eauto.
  - intros h Hh. destruct (Hq h) as [Hs Hn]; [rewrite Eq; apply elem_of_cons; by right|].
    split; [|done]. rewrite elem_of_app, list_elem_of_singleton.
    intros [?| ->]; [done|]. done.
  - intros h. rewrite elem_of_app, list_elem_of_singleton.
    intros [?| ->]; [by apply Hst|done].
  - intros h Hh. apply elem_of_app. left. by apply Hdone.
  - intros i hT hD Hi Hs. apply (Hfe i); [done|]. by apply Hiss.
  - intros hT hD He Hs. apply (Hord hT); [done|]. by apply Hiss.
Qed.

Lemma filter_len_none {A} (P : A -> Prop) `{forall x, Decision (P x)} (E : list A) :
  (forall x, x ∈ E -> ~ P x) -> length (filter P E) = 0.
Proof.
  induction E as [|y E IH]; intros HE; [done|].
  rewrite filter_cons, decide_False by (apply HE; apply elem_of_cons; by left).
  apply IH. intros x Hx. apply HE. apply elem_of_cons. by right.
Qed.

Lemma filter_map_pair (h a b : nat) (P : list nat) :
  length (filter (fun e => e = (a, b)) (map (pair h) P)) =
  if decide (a = h) then length (filter (fun y => y = b) P) else 0.
Proof.
  induction P as [|y P IH]; [simpl; by destruct (decide _)|].
  cbn [map]. rewrite filter_cons.
  destruct (decide ((h, y) = (a, b))) as [E|E].
  - injection E as -> ->. cbn [length]. rewrite IH, !decide_True by done.
    rewrite filter_cons, decide_True by done. done.
  - rewrite IH. destruct (decide (a = h)) as [->|]; [|done].
    rewrite filter_cons, decide_False by congruence. done.
Qed.

Lemma submit_frame s t :
  mgr_status s <> Shutdown ->
  next_handle (submit s t).2 = S (next_handle s) /\
  threads (submit s t).2 = threads s /\ done_h (submit s t).2 = done_h s /\
  started_h (submit s t).2 = started_h s.
Proof.
  intros Hs. unfold submit.
  destruct (is_ready _ _ _ _ _) as [[[t' hp] rdy] eds].
  by destruct (mgr_status s).
Qed.

Lemma inv_submit s t :
  Inv s -> fresh_for s t -> next t = [] -> Inv (submit s t).2.
Proof.
  intros I Hfr Hnx.
  destruct (decide (mgr_status s = Shutdown)) as [Hsd|Hsd].
  { unfold submit. rewrite Hsd. exact I. }
  destruct (submit_frame s t Hsd) as (Hnh & Hth & Hdn & Hst').
  destruct (submit_shape s t Hsd) as (s' & Hsub & Hh & Hx & Hq' & Hm & He).
  rewrite Hsub in Hnh, Hth, Hdn, Hst' |- *. cbn [snd] in Hnh, Hth, Hdn, Hst' |- *.
  set (h := next_handle s) in *.
  set (P := present (task_map s) (depend t)) in *.
  destruct I as [Hdom Hmap Hnids Hncnt Hedges Hsnap Hdeg Hbusy Huniq Hqnd Hq Hst
    Hdone Hfe Hord].
  assert (Hlt : forall x u, heap s !! x = Some u -> x < h).
  { intros x u Hu. apply Hdom. eauto. }
  assert (HP : forall hd, hd ∈ P -> hd < h).
  { intros hd Hd. unfold P, present in Hd. apply list_elem_of_omap in Hd as (d & _ & Hd).
    destruct (Hmap _ _ Hd) as (u & Hu & _). eauto. }
  assert (Hlk : forall x u, heap s' !! x = Some u ->
     (x = h /\ u = set_in_degree t (in_degree t + length P)) \/
     (x <> h /\ exists u0, heap s !! x = Some u0 /\
        u = push_many (length (filter (fun y => y = x) P)) (id t) u0)).
  { intros x u Hu. destruct (decide (x = h)) as [->|Hne].
    - left. rewrite Hh in Hu. by injection Hu as <-.
    - right. rewrite Hx in Hu by done. split; [done|].
      destruct (heap s !! x) as [u0|]; [|done]. injection Hu as <-. eauto. }
  assert (Hold : forall x u0, heap s !! x = Some u0 ->
     heap s' !! x = Some (push_many (length (filter (fun y => y = x) P)) (id t) u0)).
  { intros x u0 Hu0. rewrite Hx, Hu0; [done|]. pose proof (Hlt _ _ Hu0). lia. }
  assert (Hq'm : forall x, x ∈ ready_q s' -> x ∈ ready_q s \/ (x = h /\ P = [])).
  { intros x. rewrite Hq'. case_bool_decide; [|by left].
    rewrite elem_of_app, list_elem_of_singleton. tauto. }
  assert (Hsh : forall x, x ∈ started_h s -> x < h) by exact Hst.
  assert (Hqh : forall x, x ∈ ready_q s -> x < h) by (intros x Hx'; by apply Hq).
  assert (Hiss : forall hT, issued s' hT -> hT <> h -> issued s hT).
  { unfold issued. rewrite Hst'. intros hT [Hi|Hi] Hne; [|by right].
    destruct (Hq'm _ Hi) as [?|[? _]]; [by left|done]. }
  assert (Hne_h : forall hT hD, (hT, hD) ∈ edges s -> hT <> h).
  { intros hT hD Hin. pose proof (Hedges _ Hin). simpl in *. lia. }
  assert (Hnew : forall e, e ∈ map (pair h) P -> e.1 = h /\ e.2 ∈ P).
  { intros e. rewrite list_elem_of_In, in_map_iff. intros (y & <- & Hy).
    simpl. split; [done|]. by apply list_elem_of_In. }
  constructor; unfold pend, ecount, issued in *; rewrite ?Hnh, ?Hth, ?Hdn, ?Hst'.
  - intros x. destruct (decide (x = h)) as [->|Hne].
    + rewrite Hh. split; [lia|eauto].
    + rewrite Hx by done. rewrite fmap_is_Some, Hdom. lia.
  - intros i hh. rewrite Hm, lookup_insert_Some. intros [[<- <-]|[Hne Hi]].
    + eexists. split; [exact Hh|done].
    + destruct (Hmap _ _ Hi) as (u & Hu & <-). eexists.
      split; [by apply Hold|apply push_many_fields].
  - intros hD tD i HD Hi. apply Hlk in HD as [[-> ->]|[Hne (u0 & Hu0 & ->)]].
    + simpl in Hi. rewrite Hnx in Hi. set_solver.
    + destruct (push_many_fields (length (filter (fun y => y = hD) P)) (id t) u0)
        as (_ & _ & Hn). rewrite Hn, elem_of_app in Hi. destruct Hi as [Hi|Hi].
      * destruct (Hnids _ _ _ Hu0 Hi) as (h1 & u1 & Hu1 & <-).
        exists h1. eexists. split; [by apply Hold|apply push_many_fields].
      * apply list_elem_of_In, repeat_spec in Hi as ->.
        exists h. eexists. split; [exact Hh|done].
  - intros hD tD hT HD. rewrite He, filter_app, length_app, filter_map_pair.
    apply Hlk in HD as [[-> ->]|[Hne (u0 & Hu0 & ->)]].
    + simpl. rewrite Hnx. rewrite cnt_nil. lia.
    + destruct (push_many_fields (length (filter (fun y => y = hD) P)) (id t) u0)
        as (_ & _ & Hn). rewrite Hn, cnt_app, cnt_repeat, Hm, lookup_insert_eq.
      assert (Hc : cnt (<[id t := h]> (task_map s)) (next u0) hT =
                   cnt (task_map s) (next u0) hT).
      { apply cnt_ext. intros i Hi. rewrite lookup_insert_ne; [done|].
        destruct (Hnids _ _ _ Hu0 Hi) as (h1 & u1 & Hu1 & <-).
        exact (not_eq_sym (Hfr _ _ Hu1)). }
      rewrite Hc. pose proof (Hncnt _ _ hT Hu0) as Hb. unfold ecount in Hb.
      destruct (decide (Some h = Some hT)) as [E1|E1];
        destruct (decide (hT = h)) as [E2|E2]; try (exfalso; congruence); lia.
  - intros e. rewrite He, elem_of_app. intros [Hin|Hin].
    + pose proof (Hedges _ Hin). lia.
    + apply Hnew in Hin as [-> _]. lia.
  - intros w v h0 t0 Hw. destruct (Hsnap _ _ _ _ Hw) as (tD & HtD & Hid & Hpre).
    exists (push_many (length (filter (fun y => y = h0) P)) (id t) tD).
    split; [by apply Hold|].
    destruct (push_many_fields (length (filter (fun y => y = h0) P)) (id t) tD)
      as (-> & _ & ->).
    split; [done|]. by apply prefix_app_r.
  - intros i hT tT. rewrite Hm, lookup_insert_Some. rewrite He, filter_app, length_app.
    intros [[<- <-]|[Hne Hi]] HT.
    + rewrite Hh in HT. injection HT as <-. simpl.
      rewrite filter_len_none.
      2:{ intros e Hin [He1 _]. by apply (Hne_h e.1 e.2); [destruct e|]. }
      pose proof (length_filter (fun e : nat * nat => e.1 = h /\ e.2 ∉ done_h s)
                    (map (pair h) P)) as Hl. rewrite length_map in Hl. lia.
    + destruct (Hmap _ _ Hi) as (u & Hu & _).
      pose proof (Hold _ _ Hu) as Hu'. rewrite HT in Hu'. injection Hu' as ->.
      destruct (push_many_fields (length (filter (fun y => y = hT) P)) (id t) u)
        as (_ & -> & _).
      rewrite (filter_len_none _ (map (pair h) P)).
      2:{ intros e Hin [He1 _]. apply Hnew in Hin as [He2 _].
          pose proof (Hlt _ _ Hu). lia. }
      pose proof (Hdeg _ _ _ Hi Hu). lia.
  - exact Hbusy.
  - exact Huniq.
  - rewrite Hq'. case_bool_decide; [|done].
    apply NoDup_app. split; [done|]. split; [|apply NoDup_singleton].
    intros x Hy Hy'. apply list_elem_of_singleton in Hy' as ->.
    pose proof (Hqh _ Hy). lia.
  - intros x Hy. apply Hq'm in Hy as [Hy|[-> _]].
    + destruct (Hq _ Hy). split; [done|lia].
    + split; [|lia]. intros Hs. pose proof (Hsh _ Hs). lia.
  - intros x Hy. pose proof (Hsh _ Hy). lia.
  - exact Hdone.
  - intros i hT hD Hi Hs. rewrite Hm, lookup_insert_Some in Hi.
    rewrite He, elem_of_app. destruct Hi as [[<- <-]|[Hne Hi]].
    + intros [Hin|Hin]; [by apply (Hne_h h hD)|].
      destruct Hs as [Hs|Hs].
      * apply Hq'm in Hs as [Hs|[_ HP0]].
        -- pose proof (Hqh _ Hs). lia.
        -- rewrite HP0 in Hin. simpl in Hin. set_solver.
      * pose proof (Hsh _ Hs). lia.
    + assert (HhT : hT <> h).
      { destruct (Hmap _ _ Hi) as (u & Hu & _). pose proof (Hlt _ _ Hu). lia. }
      intros [Hin|Hin].
      * apply (Hfe i hT hD Hi); [apply Hiss; [by rewrite Hst'|done]|done].
      * apply Hnew in Hin as [Hin _]. simpl in Hin. done.
  - intros hT hD. rewrite He, elem_of_app. intros [Hin|Hin] Hs.
    + apply (Hord hT); [done|]. apply Hiss; [by rewrite Hst'|]. by apply (Hne_h hT hD).
    + apply Hnew in Hin as [Hh1 Hh2]. simpl in Hh1, Hh2. subst hT.
      destruct Hs as [Hs|Hs].
      * apply Hq'm in Hs as [Hs|[_ HP0]].
        -- pose proof (Hqh _ Hs). lia.
        -- rewrite HP0 in Hh2. set_solver.
      * pose proof (Hsh _ Hs). lia.
Qed.

Lemma filter_len_pos {A} (P : A -> Prop) `{forall x, Decision (P x)} (E : list A) :
  0 < length (filter P E) -> exists x, x ∈ E /\ P x.
Proof.
  induction E as [|y E IH]; [simpl; lia|].
  rewrite filter_cons. case_decide as Hy.
  - intros _. exists y. split; [apply elem_of_cons; by left|done].
  - intros Hl. destruct (IH Hl) as (x & Hx & Px). exists x.
    split; [apply elem_of_cons; by right|done].
Qed.

Lemma pend_ecount s hT D :
  D ∉ done_h s ->
  pend s hT = pend (mark_done s D) hT + ecount s hT D.
Proof. intros HD. unfold pend, ecount. simpl. by apply filter_len_split. Qed.

Lemma inv_complete s w v h t :
  Inv s -> threads s !! w = Some (mkWorker v (WBusy h t)) ->
  exists s2, complete_block s t = Some s2 /\
    Inv (mark_done (set_thread s2 w (mkWorker v WLoop)) h).
Proof.
  intros I Hw. pose proof I as I0.
  destruct I as [Hdom Hmap Hnids Hncnt Hedges Hsnap Hdeg Hbusy Huniq Hqnd Hq Hst
    Hdone Hfe Hord].
  destruct (Hsnap _ _ _ _ Hw) as (tD & HtD & Hid & Hpre).
  destruct (Hbusy _ _ _ _ Hw) as [Hhs Hhd].
  set (M := task_map s) in *. set (M0 := delete (id t) M).
  assert (HM0 : forall i x, M0 !! i = Some x -> M !! i = Some x).
  { intros i x Hi. by apply lookup_delete_Some in Hi as [_ Hi]. }
  assert (Hcb : forall hT, cnt M0 (next t) hT <= ecount s hT h).
  { intros hT. etrans; [by apply cnt_mono|].
    etrans; [by apply cnt_prefix|]. by apply Hncnt. }
  assert (Hpe : forall hT, pend s hT = pend (mark_done s h) hT + ecount s hT h).
  { intros hT. by apply pend_ecount. }
  assert (Hdeg' : forall hT tT, heap s !! hT = Some tT ->
                    cnt M0 (next t) hT <= in_degree tT).
  { intros hT tT HT. destruct (decide (cnt M0 (next t) hT = 0)) as [->|Hc]; [lia|].
    destruct (cnt_pos M0 (next t) hT) as [i Hi]; [lia|].
    pose proof (Hdeg _ _ _ (HM0 _ _ Hi) HT). pose proof (Hcb hT).
    pose proof (Hpe hT). lia. }
  assert (Hid' : forall i x, M0 !! i = Some x -> exists u, heap s !! x = Some u /\ id u = i).
  { intros i x Hi. by apply Hmap, HM0. }
  destruct (release_spec M0 (next t) (heap s) (ready_q s) [] Hdeg' Hid')
    as (hp' & q'' & rl'' & Hrel & Hp & Hmem & Hnd & Hrl & Hrl2).
  set (c := cnt M0 (next t)) in *.
  set (M' := foldl (fun m r => delete r m) M0 rl'').
  eexists. split.
  { unfold complete_block. fold M M0. rewrite Hrel. reflexivity. }
  assert (HM' : forall i x, M' !! i = Some x -> M !! i = Some x /\ (i ∉ rl'') /\ M0 !! i = Some x).
  { intros i x Hi. apply lookup_foldl_delete in Hi as [Hi Hn]. eauto. }
  assert (Hlk : forall x u, hp' !! x = Some u ->
            exists u0, heap s !! x = Some u0 /\ u = set_in_degree u0 (in_degree u0 - c x)).
  { intros x u Hu. rewrite Hp in Hu. destruct (heap s !! x) as [u0|]; [|done].
    injection Hu as <-. eauto. }
  assert (Hsome : forall x u0, heap s !! x = Some u0 ->
            hp' !! x = Some (set_in_degree u0 (in_degree u0 - c x))).
  { intros x u0 Hu0. by rewrite Hp, Hu0. }
  assert (Hthr : forall w' v' h0 t0,
            <[w := mkWorker v WLoop]> (threads s) !! w' = Some (mkWorker v' (WBusy h0 t0)) ->
            w' <> w /\ threads s !! w' = Some (mkWorker v' (WBusy h0 t0))).
  { intros w' v' h0 t0 Hl. apply insert_busy_lookup in Hl as [[_ E]|[Hne Hl]];
      [discriminate|done]. }
  assert (Hq''i : forall x, x ∈ q'' ->
            (exists i, M0 !! i = Some x) /\ (x, h) ∈ edges s /\ ~ issued s x /\
            exists u, heap s !! x = Some u /\ in_degree u = c x /\ 0 < c x).
  { intros x Hx. apply Hmem in Hx as (u & Hu & Hc & Hin).
    destruct (cnt_pos M0 (next t) x) as [i Hi]; [exact Hc|].
    assert (Hex : (x, h) ∈ edges s).
    { pose proof (Hcb x) as Hb. unfold ecount in Hb.
      destruct (filter_len_pos (fun e => e = (x, h)) (edges s)) as (e & He & ->);
        [fold c; lia|done]. }
    split; [eauto|]. split; [done|]. split.
    - intros Hiss. exact (Hfe i x h (HM0 _ _ Hi) Hiss Hex).
    - eauto. }
  constructor; unfold pend, ecount, issued, mark_done, set_thread;
    cbn [heap task_map ready_q next_handle threads edges done_h started_h].
  - intros x. rewrite Hp, fmap_is_Some. apply Hdom.
  - intros i x Hi. destruct (HM' _ _ Hi) as (Hi' & _ & _).
    destruct (Hmap _ _ Hi') as (u & Hu & <-). eexists. split; [by apply Hsome|done].
  - intros hD tD' i HD Hi. destruct (Hlk _ _ HD) as (u0 & Hu0 & ->).
    destruct (Hnids _ _ _ Hu0 Hi) as (h1 & u1 & Hu1 & <-).
    exists h1. eexists. split; [by apply Hsome|done].
  - intros hD tD' hT HD. destruct (Hlk _ _ HD) as (u0 & Hu0 & ->). simpl.
    etrans; [|exact (Hncnt _ _ hT Hu0)].
    apply cnt_mono. intros i x Hi. by apply HM'.
  - exact Hedges.
  - intros w' v' h0 t0 Hl. apply Hthr in Hl as [_ Hl].
    destruct (Hsnap _ _ _ _ Hl) as (tD0 & H0 & Hid0 & Hpre0).
    eexists. split; [by apply Hsome|]. done.
  - intros i hT tT Hi HT. destruct (HM' _ _ Hi) as (Hi' & _ & _).
    destruct (Hlk _ _ HT) as (u0 & Hu0 & ->). simpl.
    pose proof (Hdeg _ _ _ Hi' Hu0). pose proof (Hcb hT). pose proof (Hpe hT).
    unfold pend, ecount, mark_done in *. simpl in *. lia.
  - intros w' v' h0 t0 Hl. apply Hthr in Hl as [Hne Hl].
    destruct (Hbusy _ _ _ _ Hl) as [Hs0 Hd0]. split; [done|].
    rewrite elem_of_app, list_elem_of_singleton. intros [?| ->]; [done|].
    apply Hne. exact (Huniq _ _ _ _ _ _ _ Hl Hw).
  - intros w1 w2 v1 v2 h0 t1 t2 H1 H2.
    apply Hthr in H1 as [_ H1]. apply Hthr in H2 as [_ H2]. eauto.
  - apply NoDup_app. split; [done|]. split; [|done].
    intros x Hx Hx''. destruct (Hq''i x Hx'') as (_ & _ & Hni & _).
    apply Hni. by left.
  - intros x. rewrite elem_of_app. intros [Hx|Hx].
    + by apply Hq.
    + destruct (Hq''i x Hx) as (_ & _ & Hni & u & Hu & _).
      split; [intros ?; apply Hni; by right|]. apply Hdom. eauto.
  - exact Hst.
  - intros x. rewrite elem_of_app, list_elem_of_singleton.
    intros [?| ->]; [by apply Hdone|done].
  - intros i hT hD Hi Hs. destruct (HM' _ _ Hi) as (Hi' & Hnr & Hi0).
    rewrite elem_of_app in Hs. destruct Hs as [[Hs|Hs]|Hs].
    + apply (Hfe i); [done|by left].
    + destruct (Hrl2 _ Hs) as (r & Hr & Hr0).
      destruct (Hmap _ _ Hi') as (u & Hu & Hui).
      destruct (Hmap _ _ (HM0 _ _ Hr0)) as (u' & Hu' & Hui').
      rewrite Hu in Hu'. injection Hu' as <-. subst i r. done.
    + apply (Hfe i); [done|by right].
  - intros hT hD He Hs.
    rewrite elem_of_app in Hs. destruct Hs as [[Hs|Hs]|Hs].
    + apply elem_of_app. left. apply (Hord hT); [done|by left].
    + destruct (Hq''i hT Hs) as ((i & Hi) & Hex & _ & u & Hu & Hin & Hc).
      pose proof (Hdeg _ _ _ (HM0 _ _ Hi) Hu). pose proof (Hcb hT).
      pose proof (Hpe hT) as Hpe'.
      unfold pend, ecount, mark_done in *. simpl in *.
      assert (Hz : length (filter (fun e => e.1 = hT /\ e.2 ∉ done_h s ++ [h])
                                  (edges s)) = 0) by lia.
      pose proof (filter_len_zero _ _ _ Hz He) as Hn. simpl in Hn.
      destruct (decide (hD ∈ done_h s ++ [h])) as [|Hnd']; [done|].
      exfalso. by apply Hn.
    + apply elem_of_app. left. apply (Hord hT); [done|by right].
Qed.

Lemma inv_lift s f : Inv s -> Inv (lift_status f s).2.
Proof.
  intros I. unfold lift_status. destruct (f (mgr_status s)) as [r st].
  by apply inv_set_status.
Qed.

Lemma inv_step s l s' :
  Inv s -> (forall t, l = LSubmit t -> fresh_for s t /\ next t = []) ->
  step s l = Some s' -> Inv s'.
Proof.
  intros I Hl. destruct l as [t| | | |w b]; simpl.
  - intros [= <-]. destruct (Hl t eq_refl). by apply inv_submit.
  - intros [= <-]. by apply inv_lift.
  - intros [= <-]. by apply inv_lift.
  - intros [= <-]. by apply inv_lift.
  - unfold worker_step. destruct (threads s !! w) as [[v p]|] eqn:Hw; [|done].
    destruct p as [| | | |h t| |]; try done;
      try (intros [= <-]; apply inv_set_thread; [done|intros ? ?; discriminate]).
    + destruct v; intros [= <-]; apply inv_set_thread; try done;
        intros ? ?; discriminate.
    + by apply inv_pop.
    + unfold finish_step. destruct (test t), b.
      * destruct (inv_complete (add_file s (file_name t)) w v h t
                    (inv_add_file _ _ I) Hw) as (s2 & Hc & I2).
        rewrite Hc. intros [= <-]. exact I2.
      * intros [= <-]. apply inv_set_thread; [done|intros ? ?; discriminate].
      * destruct (inv_complete s w v h t I Hw) as (s2 & Hc & I2).
        rewrite Hc. intros [= <-]. exact I2.
      * destruct (inv_complete s w v h t I Hw) as (s2 & Hc & I2).
        rewrite Hc. intros [= <-]. exact I2.
Qed.

Lemma release_ids tm L : forall hp q rl hp' q' rl',
  release tm L hp q rl = Some (hp', q', rl') ->
  forall x u, hp' !! x = Some u -> exists u0, hp !! x = Some u0 /\ id u0 = id u.
Proof.
  induction L as [|i L IH]; simpl; intros hp q rl hp' q' rl'.
  - intros [= <- _ _]. eauto.
  - destruct (tm !! i) as [h|]; [|apply IH].
    destruct (hp !! h) as [nt|] eqn:Hnt; [|apply IH].
    destruct (Nat.eqb (in_degree nt) 0); [done|].
    assert (Hk : forall hp'', (forall x u, hp' !! x = Some u ->
                   exists u0, hp'' !! x = Some u0 /\ id u0 = id u) ->
                 hp'' = <[h := set_in_degree nt (in_degree nt - 1)]> hp ->
                 forall x u, hp' !! x = Some u -> exists u0, hp !! x = Some u0 /\ id u0 = id u).
    { intros hp'' H1 -> x u Hu. destruct (H1 x u Hu) as (u0 & Hu0 & Hid).
      destruct (decide (x = h)) as [->|Hne].
      - rewrite lookup_insert_eq in Hu0. injection Hu0 as <-. eauto.
      - rewrite lookup_insert_ne in Hu0 by congruence. eauto. }
    destruct (Nat.eqb _ 0); intros Hr; (eapply Hk; [eapply IH; exact Hr|done]).
Qed.

Lemma complete_block_ids s t s2 : complete_block s t = Some s2 -> ids_kept s s2.
Proof.
  unfold complete_block.
  destruct (release _ _ _ _ _) as [[[hp q] rl]|] eqn:Hr; [|done].
  intros [= <-]. intros x u Hu. by eapply release_ids.
Qed.

Lemma worker_step_ids s w b s' : worker_step s w b = Some s' -> ids_kept s s'.
Proof.
  unfold worker_step.
  destruct (threads s !! w) as [[v p]|]; [|done].
  assert (Hrefl : forall s1, heap s1 = heap s -> ids_kept s s1).
  { intros s1 Hs1 x u Hu. rewrite Hs1 in Hu. eauto. }
  destruct p as [| | | |h t| |]; try done;
    try (intros [= <-]; by apply Hrefl).
  - destruct v; intros [= <-]; by apply Hrefl.
  - unfold pop_step. destruct (ready_q s) as [|h q]; [done|].
    destruct (heap s !! h); [|done]. intros [= <-]. by apply Hrefl.
  - unfold finish_step. destruct (test t), b;
      try (destruct (complete_block _ t) as [s2|] eqn:Hc; [|done];
           intros [= <-]; intros x u Hu;
           by apply (complete_block_ids _ _ _ Hc)).
    intros [= <-]. by apply Hrefl.
Qed.

Lemma step_ids s l s' :
  step s l = Some s' ->
  forall x u, heap s' !! x = Some u ->
    (exists u0, heap s !! x = Some u0 /\ id u0 = id u) \/
    (exists t, l = LSubmit t /\ id u = id t).
Proof.
  destruct l as [t| | | |w b]; simpl.
  - intros [= <-] x u Hu.
    destruct (decide (mgr_status s = Shutdown)) as [Hsd|Hsd].
    { left. unfold submit in Hu. rewrite Hsd in Hu. eauto. }
    destruct (submit_shape s t Hsd) as (s' & Hsub & Hh & Hx & _).
    rewrite Hsub in Hu. simpl in Hu.
    destruct (decide (x = next_handle s)) as [->|Hne].
    + right. exists t. rewrite Hh in Hu. injection Hu as <-. done.
    + left. rewrite Hx in Hu by done.
      destruct (heap s !! x) as [u0|]; [|done]. injection Hu as <-.
      exists u0. split; [done|]. symmetry. apply push_many_fields.
  - intros [= <-] x u. unfold run, lift_status. destruct (run_status _). simpl. eauto.
  - intros [= <-] x u. unfold stop, lift_status. destruct (stop_status _). simpl. eauto.
  - intros [= <-] x u. unfold shutdown, lift_status. destruct (shutdown_status _).
    simpl. eauto.
  - intros Hs x u Hu. left. by apply (worker_step_ids _ _ _ _ Hs).
Qed.

Lemma inv_trace tr : forall s s',
  Inv s -> NoDup (map id (submitted tr)) -> Forall (fun t => next t = []) (submitted tr) ->
  (forall t, t ∈ submitted tr -> fresh_for s t) ->
  run_trace s tr = Some s' -> Inv s'.
Proof.
  induction tr as [|l tr IH]; simpl; intros s s' I Hnd Hnx Hfr.
  - by intros [= <-].
  - destruct (step s l) as [s1|] eqn:Hs; [|done].
    assert (Hsub : forall t, l = LSubmit t ->
              submitted (l :: tr) = t :: submitted tr) by (intros t ->; done).
    assert (Hsub' : forall t, t ∈ submitted tr -> t ∈ submitted (l :: tr)).
    { intros t Ht. destruct l; simpl; try done. apply elem_of_cons. by right. }
    assert (Hnd' : NoDup (map id (submitted tr))).
    { destruct l; simpl in Hnd; try done. by apply NoDup_cons in Hnd as [_ ?]. }
    assert (Hnx' : Forall (fun t => next t = []) (submitted tr)).
    { destruct l; simpl in Hnx; try done. by apply Forall_cons in Hnx as [_ ?]. }
    apply IH; [| done | done | ].
    + apply (inv_step s l s1 I); [|done].
      intros t ->. split.
      * apply Hfr. simpl. apply elem_of_cons. by left.
      * simpl in Hnx. by apply Forall_cons in Hnx as [? _].
    + intros t Ht x u Hu.
      destruct (step_ids _ _ _ Hs x u Hu) as [(u0 & Hu0 & <-)|(t0 & -> & Hid)].
      * exact (Hfr t (Hsub' t Ht) x u0 Hu0).
      * rewrite Hid. simpl in Hnd. apply NoDup_cons in Hnd as [Hn _].
        intros Heq. apply Hn. rewrite Heq. apply list_elem_of_fmap_2. done.
Qed.

Lemma inv_reachable n tr s :
  well_submitted tr -> run_trace (init n) tr = Some s -> Inv s.
Proof.
  intros [Hnd Hnx] Hrun. apply (inv_trace tr (init n) s (inv_init n) Hnd Hnx); [|done].
  intros t _ x u Hu. simpl in Hu. by rewrite lookup_empty in Hu.
Qed.

(** ** The invariant under interleaved submission

    [Inv] also holds in the middle of a [submit] call; [SubInv] describes
    the task being submitted, allocated but not yet in the registry. *)
(** ** The interleaved submission *)








Lemma submit_start_shape s t :
  mgr_status s <> Shutdown ->
  submit_start s t =
    mkF (mkSys (mgr_status s) (<[next_handle s := t]> (heap s)) (task_map s)
           (ready_q s) (S (next_handle s)) (threads s) (files s) (edges s)
           (done_h s) (started_h s))
        (Some (mkSub (next_handle s) (depend t) true)).
Proof. unfold submit_start. by destruct (mgr_status s). Qed.













Lemma is_ready_loop_eq tm h t hp eds :
  is_ready tm h t hp eds = is_ready_loop tm h (depend t) t hp true eds.
Proof. unfold is_ready. by destruct (depend t). Qed.

Lemma submit_steps_loop st tm q n th fl dn sd h deps :
  (forall i, tm !! i <> Some h) ->
  forall T hp rdy eds,
  frun_trace (mkF (mkSys st (<[h := T]> hp) tm q n th fl eds dn sd) (Some (mkSub h deps rdy)))
    (repeat FSubStep (S (length deps))) =
  let '(t', hp', rdy', eds') := is_ready_loop tm h deps T hp rdy eds in
  Some (mkF (mkSys st (<[h := t']> hp') (<[id T := h]> tm)
               (if rdy' then q ++ [h] else q) n th fl eds' dn sd) None).
Proof.
  intros Hm. induction deps as [|dep rest IH]; intros T hp rdy eds.
  - cbn [repeat length frun_trace fstep fsys fsub]. unfold submit_step.
    cbn [sub_h sub_rest sub_rdy heap task_map ready_q next_handle threads files
      edges done_h started_h mgr_status].
    by rewrite lookup_insert_eq.
  - cbn [repeat length frun_trace fstep fsys fsub]. unfold submit_step.
    cbn [sub_h sub_rest sub_rdy heap task_map ready_q next_handle threads files
      edges done_h started_h mgr_status].
    rewrite lookup_insert_eq. cbn [is_ready_loop].
    destruct (tm !! dep) as [hd|] eqn:Hd.
    + assert (hd <> h) by (intros ->; by apply (Hm dep)).
      rewrite insert_insert_eq, alter_insert_ne by done.
      exact (IH (set_in_degree T (S (in_degree T))) _ false _).
    + exact (IH T hp rdy eds).
Qed.





(** * Further properties of the code *)

(** ** Manager *)


Lemma complete_block_add_file s f t :
  complete_block (add_file s f) t = (fun s2 => add_file s2 f) <$> complete_block s t.
Proof.
  unfold complete_block. cbn.
  destruct (release _ _ _ _ _) as [[[hp q] rl]|]; reflexivity.
Qed.

Lemma step_cases s l s' :
  step s l = Some s' ->
  (exists t, l = LSubmit t /\ s' = (submit s t).2) \/
  same_core s s' \/
  (exists w v h q, threads s !! w = Some (mkWorker v WPop) /\ ready_q s = h :: q /\
     heap s' = heap s /\ task_map s' = task_map s /\ ready_q s' = q /\
     next_handle s' = next_handle s /\ edges s' = edges s /\ done_h s' = done_h s /\
     started_h s' = started_h s ++ [h]) \/
  (exists w v h t s2, threads s !! w = Some (mkWorker v (WBusy h t)) /\
     complete_block s t = Some s2 /\
     heap s' = heap s2 /\ task_map s' = task_map s2 /\ ready_q s' = ready_q s2 /\
     next_handle s' = next_handle s /\ edges s' = edges s /\
     done_h s' = done_h s ++ [h] /\ started_h s' = started_h s).
Proof.
  destruct l as [t| | | |w b]; simpl.
  - intros [= <-]. left. eauto.
  - intros [= <-]. right; left. unfold run, lift_status.
    destruct (run_status _). done.
  - intros [= <-]. right; left. unfold stop, lift_status.
    destruct (stop_status _). done.
  - intros [= <-]. right; left. unfold shutdown, lift_status.
    destruct (shutdown_status _). done.
  - unfold worker_step. destruct (threads s !! w) as [[v p]|] eqn:Hw; [|done].
    destruct p as [| | | |h t| |]; try done;
      try (intros [= <-]; right; left; done).
    + destruct v; intros [= <-]; right; left; done.
    + unfold pop_step. destruct (ready_q s) as [|h q] eqn:Hq; [done|].
      destruct (heap s !! h); [|done]. intros [= <-].
      right; right; left. exists w, v, h, q. done.
    + unfold finish_step. destruct (test t), b.
      * rewrite complete_block_add_file.
        destruct (complete_block s t) as [s2|] eqn:Hc; [|done].
        intros [= <-]. right; right; right.
        pose proof (complete_block_frame _ _ _ Hc) as (_ & _ & _ & He & Hd & Hs & Hn).
        exists w, v, h, t, s2. simpl. rewrite He, Hd, Hs, Hn. by repeat split.
      * intros [= <-]. right; left. done.
      * destruct (complete_block s t) as [s2|] eqn:Hc; [|done].
        intros [= <-]. right; right; right.
        pose proof (complete_block_frame _ _ _ Hc) as (_ & _ & _ & He & Hd & Hs & Hn).
        exists w, v, h, t, s2. simpl. rewrite He, Hd, Hs, Hn. by repeat split.
      * destruct (complete_block s t) as [s2|] eqn:Hc; [|done].
        intros [= <-]. right; right; right.
        pose proof (complete_block_frame _ _ _ Hc) as (_ & _ & _ & He & Hd & Hs & Hn).
        exists w, v, h, t, s2. simpl. rewrite He, Hd, Hs, Hn. by repeat split.
Qed.

Lemma trace_preserve (Q : SysState -> Prop)
  (HQ : forall s l s', Inv s -> Q s ->
          (forall t, l = LSubmit t -> fresh_for s t /\ next t = []) ->
          step s l = Some s' -> Q s') :
  forall tr s s', Inv s -> Q s -> NoDup (map id (submitted tr)) ->
    Forall (fun t => next t = []) (submitted tr) ->
    (forall t, t ∈ submitted tr -> fresh_for s t) ->
    run_trace s tr = Some s' -> Q s'.
Proof.
  induction tr as [|l tr IH]; simpl; intros s s' I Hq Hnd Hnx Hfr.
  - by intros [= <-].
  - destruct (step s l) as [s1|] eqn:Hs; [|done].
    assert (Hsub' : forall t, t ∈ submitted tr -> t ∈ submitted (l :: tr)).
    { intros t Ht. destruct l; simpl; try done. apply elem_of_cons. by right. }
    assert (Hnd' : NoDup (map id (submitted tr))).
    { destruct l; simpl in Hnd; try done. by apply NoDup_cons in Hnd as [_ ?]. }
    assert (Hnx' : Forall (fun t => next t = []) (submitted tr)).
    { destruct l; simpl in Hnx; try done. by apply Forall_cons in Hnx as [_ ?]. }
    assert (Hl : forall t, l = LSubmit t -> fresh_for s t /\ next t = []).
    { intros t ->. split.
      - apply Hfr. simpl. apply elem_of_cons. by left.
      - simpl in Hnx. by apply Forall_cons in Hnx as [? _]. }
    apply (IH s1); [exact (inv_step s l s1 I Hl Hs)|exact (HQ s l s1 I Hq Hl Hs)
                   |done|done|].
    intros t Ht x u Hu.
    destruct (step_ids _ _ _ Hs x u Hu) as [(u0 & Hu0 & <-)|(t0 & -> & Hid)].
    + exact (Hfr t (Hsub' t Ht) x u0 Hu0).
    + rewrite Hid. simpl in Hnd. apply NoDup_cons in Hnd as [Hn _].
      intros Heq. apply Hn. rewrite Heq. apply list_elem_of_fmap_2. done.
Qed.

Lemma reachable_preserve (Q : SysState -> Prop)
  (HQ : forall s l s', Inv s -> Q s ->
          (forall t, l = LSubmit t -> fresh_for s t /\ next t = []) ->
          step s l = Some s' -> Q s')
  n tr s : Q (init n) -> well_submitted tr -> run_trace (init n) tr = Some s -> Q s.
Proof.
  intros Q0 [Hnd Hnx] Hrun. apply (trace_preserve Q HQ tr (init n) s (inv_init n));
    try done; intros t _ x u Hu; simpl in Hu; by rewrite lookup_empty in Hu.
Qed.

Lemma complete_block_map s t s2 :
  complete_block s t = Some s2 ->
  forall i x, task_map s2 !! i = Some x -> task_map s !! i = Some x /\ i <> id t.
Proof.
  unfold complete_block. destruct (release _ _ _ _ _) as [[[hp q] rl]|]; [|done].
  intros [= <-] i x Hi. simpl in Hi. apply lookup_foldl_delete in Hi as [Hi _].
  apply lookup_delete_Some in Hi as [? ?]. done.
Qed.

Lemma submit_ghost s t :
  started_h (submit s t).2 = started_h s /\ done_h (submit s t).2 = done_h s /\
  threads (submit s t).2 = threads s.
Proof.
  unfold submit. destruct (is_ready _ _ _ _ _) as [[[t' hp] rdy] eds].
  by destruct (mgr_status s).
Qed.

Theorem dequeued_at_most_once (n : nat) (tr : list label) (s : SysState)
    (Hws : well_submitted tr) (Hrun : run_trace (init n) tr = Some s) :
  NoDup (started_h s) /\ forall h, h ∈ ready_q s -> h ∉ started_h s.
Proof.
  split; [|intros h Hh; apply (inv_q s (inv_reachable n tr s Hws Hrun) h Hh)].
  revert Hws Hrun. apply (reachable_preserve (fun s => NoDup (started_h s)));
    [|constructor].
  intros s0 l s1 I Hq _ Hs.
  destruct (step_cases _ _ _ Hs) as [(t & -> & ->)|[Hc|[Hp|Hc]]].
  - by rewrite (proj1 (submit_ghost s0 t)).
  - destruct Hc as (_ & _ & _ & _ & _ & _ & ->). done.
  - destruct Hp as (w & v & h & q & _ & Hq0 & _ & _ & _ & _ & _ & _ & ->).
    apply NoDup_app. split; [done|]. split; [|apply NoDup_singleton].
    intros x Hx Hx'. apply list_elem_of_singleton in Hx' as ->.
    apply (inv_q s0 I h); [rewrite Hq0; apply elem_of_cons; by left|done].
  - destruct Hc as (w & v & h & t & s2 & _ & _ & _ & _ & _ & _ & _ & _ & ->). done.
Qed.

Theorem done_unregistered (n : nat) (tr : list label) (s : SysState)
    (Hws : well_submitted tr) (Hrun : run_trace (init n) tr = Some s) :
  forall h i, h ∈ done_h s -> task_map s !! i <> Some h.
Proof.
  revert Hws Hrun.
  apply (reachable_preserve (fun s => forall h i, h ∈ done_h s -> task_map s !! i <> Some h));
    [|simpl; set_solver].
  intros s0 l s1 I Hq _ Hs.
  destruct (step_cases _ _ _ Hs) as [(t & -> & ->)|[Hc|[Hp|Hc]]].
  - destruct (decide (mgr_status s0 = Shutdown)) as [Hsd|Hsd].
    { unfold submit. rewrite Hsd. exact Hq. }
    destruct (submit_shape s0 t Hsd) as (s' & Hsub & _ & _ & _ & Hm & _).
    pose proof (submit_ghost s0 t) as (_ & Hd & _).
    rewrite Hsub in Hd |- *. simpl in Hd |- *. rewrite Hd, Hm.
    intros h i Hh. rewrite lookup_insert_Some. intros [[_ <-]|[_ Hi]].
    + pose proof (inv_started s0 I _ (inv_done s0 I _ Hh)). lia.
    + exact (Hq h i Hh Hi).
  - destruct Hc as (_ & Hm & _ & _ & _ & Hd & _). rewrite Hm, Hd. exact Hq.
  - destruct Hp as (w & v & h & q & _ & _ & _ & Hm & _ & _ & _ & Hd & _).
    rewrite Hm, Hd. exact Hq.
  - destruct Hc as (w & v & h & t & s2 & Hw & Hcb & _ & Hm & _ & _ & _ & Hd & _).
    rewrite Hm, Hd. intros x i Hx Hi.
    destruct (complete_block_map _ _ _ Hcb i x Hi) as [Hi0 Hne].
    apply elem_of_app in Hx as [Hx|Hx]; [exact (Hq x i Hx Hi0)|].
    apply list_elem_of_singleton in Hx as ->.
    destruct (inv_map s0 I _ _ Hi0) as (u & Hu & Hui).
    destruct (inv_snap s0 I _ _ _ _ Hw) as (tD & HtD & Hid & _).
    rewrite Hu in HtD. injection HtD as <-. congruence.
Qed.

Lemma submit_status s t :
  mgr_status (submit s t).2 = mgr_status s /\ files (submit s t).2 = files s.
Proof.
  unfold submit. destruct (is_ready _ _ _ _ _) as [[[t' hp] rdy] eds].
  by destruct (mgr_status s) eqn:E.
Qed.

Lemma never_run_set_thread s w wk :
  never_run s -> idle_worker wk -> never_run (set_thread s w wk).
Proof.
  intros (H1 & H2 & H3 & H4 & H5) Hwk. do 4 (split; [done|]).
  intros w' wk' Hl. simpl in Hl.
  apply list_lookup_insert_Some in Hl as [(_ & <- & _)|(_ & Hl)]; eauto.
Qed.

Lemma never_run_step s l s' :
  l <> LRun -> never_run s -> step s l = Some s' -> never_run s'.
Proof.
  intros Hl Hn. pose proof Hn as (H1 & H2 & H3 & H4 & H5).
  destruct l as [t| | | |w b]; simpl; [| done | | |].
  - intros [= <-]. unfold never_run. destruct (submit_ghost s t) as (-> & -> & ->).
    destruct (submit_status s t) as [-> ->]. done.
  - intros [= <-]. unfold stop, lift_status.
    destruct (mgr_status s) eqn:Es; [done| |]; simpl; unfold set_status; done.
  - intros [= <-]. unfold shutdown, lift_status.
    destruct (mgr_status s) eqn:Es; [done| |]; simpl; unfold set_status; done.
  - unfold worker_step. destruct (threads s !! w) as [[v p]|] eqn:Hw; [|done].
    destruct (H5 _ _ Hw) as [Hv Hp]. simpl in Hv, Hp.
    destruct Hp as [->|[->|[->| ->]]]; [| | |done].
    + intros [= <-]. apply never_run_set_thread; [done|]. split; [exact H1|]. simpl; tauto.
    + destruct v; [done| |]; intros [= <-]; apply never_run_set_thread; try done;
        (split; [done|]); simpl; tauto.
    + intros [= <-]. apply never_run_set_thread; [done|]. split; [exact H1|]. simpl; tauto.
Qed.

Theorem no_dequeue_before_run (n : nat) (tr : list label) (s : SysState)
    (Hnr : Forall (fun l => l <> LRun) tr) (Hrun : run_trace (init n) tr = Some s) :
  started_h s = [] /\ done_h s = [] /\ files s = [] /\
  forall w wk, threads s !! w = Some wk -> wpc wk <> WPop /\ forall h t, wpc wk <> WBusy h t.
Proof.
  assert (Hn : never_run s).
  { assert (H0 : never_run (init n)).
    { split; [done|]. do 3 (split; [done|]). intros w wk Hl. simpl in Hl.
      apply list_elem_of_lookup_2, list_elem_of_In, repeat_spec in Hl as ->.
      split; [done|]. by left. }
    revert Hrun. generalize (init n) H0. clear H0.
    induction tr as [|l tr IH]; simpl; intros s0 H0.
    - by intros [= <-].
    - apply Forall_cons in Hnr as [Hl Hnr].
      destruct (step s0 l) as [s1|] eqn:Hs; [|done].
      apply IH; [done|]. exact (never_run_step _ _ _ Hl H0 Hs). }
  destruct Hn as (_ & H2 & H3 & H4 & H5). do 3 (split; [done|]).
  intros w wk Hw. destruct (H5 _ _ Hw) as [_ Hp].
  split; [intros E; rewrite E in Hp; naive_solver|].
  intros h t E. rewrite E in Hp. naive_solver.
Qed.


Lemma omap_nil_iff {A B} (f : A -> option B) (l : list A) :
  omap f l = [] <-> Forall (fun x => f x = None) l.
Proof.
  induction l as [|x l IH]; simpl; [split; by constructor|].
  rewrite Forall_cons. destruct (f x); [split; [done|naive_solver]|].
  rewrite IH. naive_solver.
Qed.

Lemma submit_next_handle s t :
  mgr_status s <> Shutdown -> next_handle (submit s t).2 = S (next_handle s).
Proof.
  intros Hst. unfold submit. destruct (is_ready _ _ _ _ _) as [[[t' hp] rdy] eds].
  by destruct (mgr_status s).
Qed.

Lemma submit_map s t :
  mgr_status s <> Shutdown ->
  task_map (submit s t).2 = <[id t := next_handle s]> (task_map s).
Proof.
  intros Hst. destruct (submit_shape s t Hst) as (s' & Hs & _ & _ & _ & Hm & _).
  by rewrite Hs.
Qed.

Lemma submit_keeps_status s t : mgr_status (submit s t).2 = mgr_status s.
Proof. by destruct (submit_status s t). Qed.

Theorem submit_enqueue_decision (s : SysState) (t : Task)
    (Hst : mgr_status s <> Shutdown) :
  ready_q (submit s t).2 =
    if bool_decide (Forall (fun d => task_map s !! d = None) (depend t))
    then ready_q s ++ [next_handle s] else ready_q s.
Proof.
  destruct (submit_shape s t Hst) as (s' & Hs & _ & _ & Hq & _ & _).
  rewrite Hs. simpl. rewrite Hq. unfold present.
  by rewrite (bool_decide_ext _ _ (omap_nil_iff _ _)).
Qed.

Theorem submit_registry_size (s : SysState) (t : Task)
    (Hst : mgr_status s <> Shutdown) :
  size (task_map (submit s t).2) =
    (match task_map s !! id t with Some _ => size (task_map s)
     | None => S (size (task_map s)) end) /\
  task_map (submit s t).2 !! id t = Some (next_handle s).
Proof.
  rewrite (submit_map s t Hst). split; [|by rewrite lookup_insert_eq].
  rewrite map_size_insert. by destruct (task_map s !! id t).
Qed.

Theorem submit_all_independent (s : SysState) (ts : list Task)
    (Hst : mgr_status s <> Shutdown)
    (Hdeps : Forall (fun t => Forall (fun d => task_map s !! d = None /\ d ∉ map id ts)
                                  (depend t)) ts)
    (Hids : NoDup (map id ts))
    (Hfresh : Forall (fun t => task_map s !! id t = None) ts) :
  ready_q (submit_all s ts) = ready_q s ++ seq (next_handle s) (length ts) /\
  size (task_map (submit_all s ts)) = size (task_map s) + length ts.
Proof.
  rewrite Forall_forall in Hdeps, Hfresh.
  revert s Hst Hdeps Hfresh. induction ts as [|t ts IH]; intros s Hst Hdeps Hfresh; simpl.
  - by rewrite app_nil_r, Nat.add_0_r.
  - simpl in Hids. apply NoDup_cons in Hids as [Hnin Hids].
    assert (Hin : forall u, u ∈ ts -> u ∈ t :: ts)
      by (intros u Hu; apply elem_of_cons; by right).
    set (s1 := (submit s t).2).
    assert (Hm1 : task_map s1 = <[id t := next_handle s]> (task_map s))
      by exact (submit_map s t Hst).
    assert (Hst1 : mgr_status s1 <> Shutdown) by (unfold s1; by rewrite submit_keeps_status).
    assert (Hq0 : ready_q s1 = ready_q s ++ [next_handle s]).
    { unfold s1. rewrite (submit_enqueue_decision s t Hst), bool_decide_eq_true_2; [done|].
      apply Forall_forall. intros d Hd.
      pose proof (Hdeps t (proj2 (elem_of_cons _ _ _) (or_introl eq_refl))) as Ht.
      rewrite Forall_forall in Ht. by apply Ht. }
    destruct (IH Hids s1 Hst1) as [Hq Hsz].
    + intros u Hu. apply Forall_forall. intros d Hdu.
      pose proof (Hdeps u (Hin u Hu)) as Hu'. rewrite Forall_forall in Hu'.
      destruct (Hu' d Hdu) as [Hd1 Hd2].
      split; [|intros Hd; apply Hd2; simpl; apply elem_of_cons; by right].
      rewrite Hm1, lookup_insert_ne; [done|]. intros Heq. subst d. apply Hd2. simpl.
      apply elem_of_cons. by left.
    + intros u Hu. rewrite Hm1, lookup_insert_ne; [by apply Hfresh, Hin|].
      intros Heq. apply Hnin. rewrite Heq. by apply list_elem_of_fmap_2.
    + assert (Hn1 : next_handle s1 = S (next_handle s)) by exact (submit_next_handle s t Hst).
      rewrite Hq, Hq0, Hn1, Hsz, Hm1, map_size_insert_None.
      * rewrite <- app_assoc. simpl. split; [done|lia].
      * apply Hfresh, elem_of_cons. by left.
Qed.

Lemma submit_all_status s ts : mgr_status (submit_all s ts) = mgr_status s.
Proof.
  revert s. induction ts as [|t ts IH]; intros s; simpl; [done|].
  by rewrite IH, submit_keeps_status.
Qed.

Lemma submit_all_size s ts :
  mgr_status s <> Shutdown -> NoDup (map id ts) ->
  Forall (fun t => task_map s !! id t = None) ts ->
  size (task_map (submit_all s ts)) = size (task_map s) + length ts.
Proof.
  revert s. induction ts as [|t ts IH]; intros s Hst Hids Hfresh; simpl; [lia|].
  apply NoDup_cons in Hids as [Hnin Hids]. apply Forall_cons in Hfresh as [Hf0 Hfresh].
  rewrite IH.
  - rewrite (submit_map s t Hst), map_size_insert_None by done. lia.
  - by rewrite submit_keeps_status.
  - done.
  - rewrite Forall_forall in Hfresh |- *. intros u Hu.
    rewrite (submit_map s t Hst), lookup_insert_ne; [by apply Hfresh|].
    intros Heq. apply Hnin. rewrite Heq. by apply list_elem_of_fmap_2.
Qed.

Lemma submit_all_blocked s ts :
  mgr_status s <> Shutdown ->
  (forall k t, ts !! k = Some t -> exists d, d ∈ depend t /\
     (is_Some (task_map s !! d) \/ d ∈ map id (take k ts))) ->
  ready_q (submit_all s ts) = ready_q s.
Proof.
  revert s. induction ts as [|t ts IH]; intros s Hst Hb; simpl; [done|].
  assert (Hst1 : mgr_status (submit s t).2 <> Shutdown) by by rewrite submit_keeps_status.
  rewrite IH; [|done|].
  - rewrite (submit_enqueue_decision s t Hst), bool_decide_eq_false_2; [done|].
    destruct (Hb 0 t eq_refl) as (d & Hd & [[x Hx]|Hd']); [|simpl in Hd'; set_solver].
    rewrite Forall_forall. intros Hall. specialize (Hall d Hd). congruence.
  - intros k u Hu. destruct (Hb (S k) u Hu) as (d & Hd & Hor).
    exists d. split; [done|]. rewrite (submit_map s t Hst), lookup_insert_is_Some.
    destruct Hor as [Hs|Hin]; [|simpl in Hin; apply elem_of_cons in Hin as [->|Hin]].
    + destruct (decide (id t = d)); [by left; left|by left; right].
    + by left; left.
    + by right.
Qed.

Theorem submit_all_chain (s : SysState) (t0 : Task) (ts : list Task)
    (Hst : mgr_status s <> Shutdown)
    (H0 : Forall (fun d => task_map s !! d = None) (depend t0))
    (Hlater : forall k t, ts !! k = Some t ->
       exists d, d ∈ depend t /\ d ∈ map id (take (S k) (t0 :: ts)))
    (Hids : NoDup (map id (t0 :: ts)))
    (Hfresh : Forall (fun t => task_map s !! id t = None) (t0 :: ts)) :
  ready_q (submit_all s (t0 :: ts)) = ready_q s ++ [next_handle s] /\
  size (task_map (submit_all s (t0 :: ts))) = size (task_map s) + S (length ts).
Proof.
  split; [|exact (submit_all_size s (t0 :: ts) Hst Hids Hfresh)].
  simpl. rewrite submit_all_blocked.
  - rewrite (submit_enqueue_decision s t0 Hst), bool_decide_eq_true_2; done.
  - by rewrite submit_keeps_status.
  - intros k u Hu. destruct (Hlater k u Hu) as (d & Hd & Hin).
    exists d. split; [done|]. rewrite (submit_map s t0 Hst), lookup_insert_is_Some.
    simpl in Hin. apply elem_of_cons in Hin as [->|Hin].
    + by left; left.
    + by right.
Qed.

Theorem registry_consistent (n : nat) (tr : list label) (s : SysState)
    (Hws : well_submitted tr) (Hrun : run_trace (init n) tr = Some s) :
  forall i h, task_map s !! i = Some h -> exists t, heap s !! h = Some t /\ id t = i.
Proof. exact (inv_map s (inv_reachable n tr s Hws Hrun)). Qed.


Lemma registry_consistent_witness :
  exists s, run_trace (init 2) tr_released_dep = Some s /\
    forall i h, task_map s !! i = Some h -> exists t, heap s !! h = Some t /\ id t = i.
Proof.
  assert (Hws : well_submitted tr_released_dep).
  { unfold well_submitted. apply (bool_decide_unpack _). vm_compute. reflexivity. }
  destruct (run_trace (init 2) tr_released_dep) as [s|] eqn:E;
    [|vm_compute in E; discriminate].
  exists s. split; [reflexivity|].
  exact (registry_consistent 2 tr_released_dep s Hws E).
Defined.


Lemma dequeued_at_most_once_witness :
  exists s, run_trace (init 2) tr_released_dep = Some s /\
    NoDup (started_h s) /\ forall h, h ∈ ready_q s -> h ∉ started_h s.
Proof.
  assert (Hws : well_submitted tr_released_dep).
  { unfold well_submitted. apply (bool_decide_unpack _). vm_compute. reflexivity. }
  destruct (run_trace (init 2) tr_released_dep) as [s|] eqn:E;
    [|vm_compute in E; discriminate].
  exists s. split; [reflexivity|].
  exact (dequeued_at_most_once 2 tr_released_dep s Hws E).
Defined.

Lemma done_unregistered_witness :
  exists s, run_trace (init 2) tr_released_dep = Some s /\
    forall h i, h ∈ done_h s -> task_map s !! i <> Some h.
Proof.
  assert (Hws : well_submitted tr_released_dep).
  { unfold well_submitted. apply (bool_decide_unpack _). vm_compute. reflexivity. }
  destruct (run_trace (init 2) tr_released_dep) as [s|] eqn:E;
    [|vm_compute in E; discriminate].
  exists s. split; [reflexivity|].
  exact (done_unregistered 2 tr_released_dep s Hws E).
Defined.

Lemma no_dequeue_before_run_witness :
  exists s, run_trace (init 1) tr_not_run = Some s /\
    started_h s = [] /\ done_h s = [] /\ files s = [] /\
    forall w wk, threads s !! w = Some wk -> wpc wk <> WPop /\ forall h t, wpc wk <> WBusy h t.
Proof.
  assert (Hnr : Forall (fun l => l <> LRun) tr_not_run)
    by (repeat constructor; discriminate).
  destruct (run_trace (init 1) tr_not_run) as [s|] eqn:E;
    [|vm_compute in E; discriminate].
  exists s. split; [reflexivity|].
  exact (no_dequeue_before_run 1 tr_not_run s Hnr E).
Defined.

Lemma submit_enqueue_decision_witness :
  mgr_status (init 1) <> Shutdown /\
  ready_q (submit (init 1) (mk_stub 0 [0; 5] "a")).2 =
    if bool_decide (Forall (fun d => task_map (init 1) !! d = None) [0; 5])
    then [] ++ [0] else [].
Proof.
  split; [discriminate|].
  exact (submit_enqueue_decision (init 1) (mk_stub 0 [0; 5] "a") ltac:(discriminate)).
Defined.

Lemma submit_registry_size_witness :
  let s := (submit (init 1) (mk_stub 0 [] "a")).2 in
  mgr_status s <> Shutdown /\
  size (task_map (submit s (mk_stub 0 [] "b")).2) =
    (match task_map s !! 0 with Some _ => size (task_map s)
     | None => S (size (task_map s)) end) /\
  task_map (submit s (mk_stub 0 [] "b")).2 !! 0 = Some (next_handle s).
Proof.
  intros s. assert (Hst : mgr_status s <> Shutdown) by (vm_compute; discriminate).
  split; [exact Hst|].
  exact (submit_registry_size s (mk_stub 0 [] "b") Hst).
Defined.

Lemma submit_all_independent_witness :
  ready_q (submit_all (init 1) (no_dep_tasks 100)) = [] ++ seq 0 100 /\
  size (task_map (submit_all (init 1) (no_dep_tasks 100))) = 0 + 100.
Proof.
  assert (H1 : Forall (fun t => Forall (fun d => task_map (init 1) !! d = None /\
                 d ∉ map id (no_dep_tasks 100)) (depend t)) (no_dep_tasks 100)).
  { apply (bool_decide_unpack _). vm_compute. reflexivity. }
  assert (H2 : NoDup (map id (no_dep_tasks 100))).
  { apply (bool_decide_unpack _). vm_compute. reflexivity. }
  assert (H3 : Forall (fun t => task_map (init 1) !! id t = None) (no_dep_tasks 100)).
  { apply (bool_decide_unpack _). vm_compute. reflexivity. }
  exact (submit_all_independent (init 1) (no_dep_tasks 100) ltac:(discriminate) H1 H2 H3).
Defined.

Lemma forall_lookup_zip {A} (P : nat -> A -> Prop) (l : list A) :
  Forall (fun kx => P kx.1 kx.2) (zip (seq 0 (length l)) l) ->
  forall k x, l !! k = Some x -> P k x.
Proof.
  rewrite Forall_lookup. intros H k x Hk. apply (H k (k, x)).
  apply lookup_zip_Some. split; [|done].
  apply lookup_seq_lt. by eapply lookup_lt_Some.
Qed.

Lemma submit_all_chain_witness :
  ready_q (submit_all (init 1) (mk_stub 0 [] "wwt" :: tail (chain_tasks 30))) = [] ++ [0] /\
  size (task_map (submit_all (init 1) (mk_stub 0 [] "wwt" :: tail (chain_tasks 30)))) =
    0 + S 29.
Proof.
  assert (Hl : forall k t, tail (chain_tasks 30) !! k = Some t ->
     exists d, d ∈ depend t /\ d ∈ map id (take (S k) (mk_stub 0 [] "wwt" :: tail (chain_tasks 30)))).
  { intros k t Hk.
    apply (forall_lookup_zip (fun k t => Exists (fun d =>
             d ∈ map id (take (S k) (mk_stub 0 [] "wwt" :: tail (chain_tasks 30)))) (depend t)))
      in Hk; [by apply Exists_exists in Hk|].
    apply (bool_decide_unpack _). vm_compute. reflexivity. }
  assert (H2 : NoDup (map id (mk_stub 0 [] "wwt" :: tail (chain_tasks 30)))).
  { apply (bool_decide_unpack _). vm_compute. reflexivity. }
  assert (H3 : Forall (fun t => task_map (init 1) !! id t = None)
                 (mk_stub 0 [] "wwt" :: tail (chain_tasks 30))).
  { apply (bool_decide_unpack _). vm_compute. reflexivity. }
  exact (submit_all_chain (init 1) (mk_stub 0 [] "wwt") (tail (chain_tasks 30))
           ltac:(discriminate) ltac:(constructor) Hl H2 H3).
Defined.


(** A worker blocked in [pop] on an empty queue is woken only by a push:
    [run], [stop] and [shutdown] change only the status and leave the queue
    and every worker as they were; a worker in [pop] has no step while the
    queue is empty, and dequeues the front task as soon as there is one,
    whatever the status.  A worker reads the status only when it starts
    (line 62) and while it waits in Stopped (line 65): one holding Running
    keeps it and never exits, also after [stop] or [shutdown]; one whose
    status read is Shutdown exits at the head of its loop. *)
Theorem pop_woken_only_by_push (s : SysState) (w : nat) (v : ManagerStatus)
    (Hw : threads s !! w = Some (mkWorker v WPop)) :
  (forall f, f = run \/ f = stop \/ f = shutdown ->
     ready_q (f s).2 = ready_q s /\ threads (f s).2 = threads s) /\
  (ready_q s = [] -> forall b, worker_step s w b = None) /\
  (forall h q t b, ready_q s = h :: q -> heap s !! h = Some t ->
     exists s', worker_step s w b = Some s' /\
       threads s' !! w = Some (mkWorker v (WBusy h t)) /\ ready_q s' = q) /\
  (forall w' p b s', threads s !! w' = Some (mkWorker Running p) ->
     p <> WStart -> p <> WWait -> worker_step s w' b = Some s' ->
     exists p', threads s' !! w' = Some (mkWorker Running p') /\ p' <> WExited) /\
  (forall w' b, threads s !! w' = Some (mkWorker Shutdown WLoop) ->
     worker_step s w' b = Some (set_thread s w' (mkWorker Shutdown WExited))).
Proof.
  split; [|split; [|split; [|split]]].
  - intros f [Hf|[Hf|Hf]]; subst f; unfold run, stop, shutdown, lift_status;
      by destruct (_ (mgr_status s)).
  - intros Hq b. unfold worker_step. rewrite Hw. unfold pop_step.
    by rewrite Hq.
  - intros h q t b Hq Ht. unfold worker_step. rewrite Hw. unfold pop_step.
    rewrite Hq, Ht. eexists. split; [reflexivity|]. split; [|done].
    simpl. apply list_lookup_insert_eq. by apply lookup_lt_is_Some_1.
  - intros w' p b s' Hw' Hp1 Hp2. unfold worker_step. rewrite Hw'.
    assert (Hlt : w' < length (threads s)) by (by apply lookup_lt_is_Some_1).
    destruct p as [| | | |h t| |]; try done.
    + cbn. intros [= <-]. simpl. rewrite list_lookup_insert_eq by done.
      eexists; split; [reflexivity|discriminate].
    + unfold pop_step. destruct (ready_q s) as [|h q]; [done|].
      destruct (heap s !! h); [|done]. intros [= <-].
      simpl. rewrite list_lookup_insert_eq by done.
      eexists; split; [reflexivity|discriminate].
    + unfold finish_step.
      destruct (test t), b;
        try (destruct (complete_block _ t) as [s2|] eqn:Ec; [|done];
             apply complete_block_frame in Ec as (_ & Hth & _);
             intros [= <-]; simpl; rewrite Hth; simpl;
             rewrite list_lookup_insert_eq by done;
             eexists; split; [reflexivity|discriminate]).
      intros [= <-]. simpl. rewrite list_lookup_insert_eq by done.
      eexists; split; [reflexivity|discriminate].
  - intros w' b Hw'. unfold worker_step. by rewrite Hw'.
Qed.

Lemma pop_woken_only_by_push_witness :
  exists s, run_trace (init 1) tr_idle = Some s /\
    threads s !! 0 = Some (mkWorker Running WPop) /\
    ready_q s = [] /\ worker_step (shutdown s).2 0 true = None.
Proof.
  destruct (run_trace (init 1) tr_idle) as [s|] eqn:E;
    [|vm_compute in E; discriminate].
  assert (Hw : threads s !! 0 = Some (mkWorker Running WPop))
    by (eval_trace E; reflexivity).
  assert (Hq : ready_q s = []) by (eval_trace E; reflexivity).
  exists s. do 3 (split; [done|]).
  pose proof (pop_woken_only_by_push s 0 Running Hw) as (Hl & Hpop & _).
  destruct (Hl shutdown ltac:(by right; right)) as [Hq' Hth].
  assert (Hw' : threads (shutdown s).2 !! 0 = Some (mkWorker Running WPop))
    by (rewrite Hth; exact Hw).
  pose proof (pop_woken_only_by_push _ 0 Running Hw') as (_ & Hpop' & _).
  apply Hpop'. rewrite Hq'. exact Hq.
Defined.

(** Run without interruption, the steps of [submit] have the effect of the
    whole call [submit]. *)
Theorem submit_steps_uninterrupted (s : SysState) (t : Task)
    (Hst : mgr_status s <> Shutdown)
    (Hfree : map_Forall (fun _ x => x <> next_handle s) (task_map s)) :
  frun_trace (mkF s None) (fsubmit t) = Some (mkF (submit s t).2 None).
Proof.
  assert (Hm : forall i, task_map s !! i <> Some (next_handle s)).
  { intros i Hi. exact (Hfree i _ Hi eq_refl). }
  unfold fsubmit. cbn [frun_trace fstep fsub fsys].
  rewrite submit_start_shape by done.
  rewrite (submit_steps_loop _ _ _ _ _ _ _ _ _ _ Hm).
  unfold submit. rewrite is_ready_loop_eq.
  destruct (is_ready_loop _ _ _ _ _ _ _) as [[[t' hp'] rdy'] eds'].
  by destruct (mgr_status s).
Qed.

Lemma submit_steps_uninterrupted_witness :
  exists s, run_trace (init 1) tr_one_task = Some s /\
    mgr_status s <> Shutdown /\
    map_Forall (fun _ x => x <> next_handle s) (task_map s) /\
    frun_trace (mkF s None) (fsubmit (mk_stub 1 [0] "t")) =
      Some (mkF (submit s (mk_stub 1 [0] "t")).2 None).
Proof.
  destruct (run_trace (init 1) tr_one_task) as [s|] eqn:E;
    [|vm_compute in E; discriminate].
  assert (Hst : mgr_status s <> Shutdown) by (eval_trace E; discriminate).
  assert (Hfree : map_Forall (fun _ x => x <> next_handle s) (task_map s)).
  { eval_trace E. apply (bool_decide_unpack _). vm_compute. reflexivity. }
  exists s. split; [reflexivity|]. split; [exact Hst|]. split; [exact Hfree|].
  exact (submit_steps_uninterrupted s _ Hst Hfree).
Defined.

(** ** Queue *)

Module SPMCQueueFacts.
Import SPMCQueue.

Lemma run_ops_fifo {A} (ops : list (op A)) : forall (q : list A),
  run_ops q ops <> RFailed /\
  forall out qf, run_ops q ops = RDone out qf ->
    map snd out ++ qf = q ++ pushed ops /\ length out = pops ops.
Proof.
  induction ops as [|[x|c] ops IH]; intros q; simpl.
  - split; [done|]. intros out qf [= <- <-]. by rewrite app_nil_r.
  - destruct (IH (push q x)) as [IH1 IH2]. split; [done|].
    intros out qf Hr. destruct (IH2 out qf Hr) as [H1 H2]. split; [|done].
    rewrite H1. unfold push. by rewrite <- app_assoc.
  - unfold pop. destruct q as [|y q]; simpl; [split; done|].
    destruct (IH q) as [IH1 IH2].
    destruct (run_ops q ops) as [| |out' qf'] eqn:E; [split; done|done|].
    split; [done|]. intros out qf [= <- <-].
    destruct (IH2 out' qf' eq_refl) as [H1 H2]. simpl. by rewrite H1, H2.
Qed.
End SPMCQueueFacts.

(** ** Front end *)

Module TUIFacts.
Import TUI.

Lemma digit_not_ws c : is_digit c -> is_ws c = false.
Proof.
  unfold is_digit, is_ws. intros Hc.
  apply not_true_iff_false. rewrite !orb_true_iff, !andb_true_iff, !N.leb_le, !N.eqb_eq.
  lia.
Qed.

Lemma digit_not_comma c : is_digit c -> (c =? 44)%N = false.
Proof. unfold is_digit. intros Hc. apply N.eqb_neq. lia. Qed.

Lemma parse_digits_snoc acc l c :
  parse_digits acc (l ++ [c]) =
    v ← parse_digits acc l; parse_digits v [c].
Proof.
  revert acc. induction l as [|x l IH]; intros acc; simpl; [done|].
  destruct (_ && _); [|done]. destruct (_ <? _)%N; [apply IH|done].
Qed.

Lemma dec_digits_one n m :
  (n < 2 ^ 64)%N -> (m < 10)%N -> forall v, (v * 10 + m = n)%N ->
  is_digit (48 + m)%N /\ parse_digits v [(48 + m)%N] = Some n.
Proof.
  intros H64 Hm v Hv. split; [unfold is_digit; lia|]. simpl.
  rewrite (proj2 (andb_true_iff _ _)) by (rewrite !N.leb_le; lia).
  replace (v * 10 + (48 + m - 48))%N with n by lia.
  by rewrite (proj2 (N.ltb_lt _ _) H64).
Qed.

Lemma dec_digits_S f n :
  dec_digits (S f) n =
    (if (n <? 10)%N then [] else dec_digits f (n / 10)) ++ [(48 + n mod 10)%N].
Proof. reflexivity. Qed.

Lemma dec_digits_spec fuel : forall n, (n < 10 ^ N.of_nat (S fuel))%N -> (n < 2 ^ 64)%N ->
  dec_digits (S fuel) n <> [] /\ Forall is_digit (dec_digits (S fuel) n) /\
  parse_digits 0 (dec_digits (S fuel) n) = Some n.
Proof.
  induction fuel as [|f IH]; intros n Hn H64.
  all: assert (Hm := N.mod_lt n 10 ltac:(lia)); assert (Hdm := N.div_mod n 10 ltac:(lia)).
  all: rewrite dec_digits_S; destruct (N.ltb_spec n 10) as [Hlt|Hge].
  all: remember (n mod 10)%N as m eqn:Em; remember (n / 10)%N as q eqn:Eq.
  all: try rewrite app_nil_l.
  - destruct (dec_digits_one n m H64 Hm 0 ltac:(lia)) as [Hd Hp].
    split; [done|]. split; [by constructor; [exact Hd|constructor]|exact Hp].
  - simpl in Hn. lia.
  - destruct (dec_digits_one n m H64 Hm 0 ltac:(lia)) as [Hd Hp].
    split; [done|]. split; [by constructor; [exact Hd|constructor]|exact Hp].
  - destruct (dec_digits_one n m H64 Hm q ltac:(lia)) as [Hd Hs].
    destruct (IH q) as (Hne & Hall & Hp).
    + rewrite Nat2N.inj_succ, N.pow_succ_r' in Hn. lia.
    + lia.
    + split; [intros Happ; by apply app_eq_nil in Happ as [_ ?]|].
      split; [apply Forall_app; split; [done|by constructor; [exact Hd|constructor]]|].
      rewrite parse_digits_snoc, Hp. exact Hs.
Qed.

Lemma show_usize_spec n : (n < 2 ^ 64)%N ->
  show_usize n <> [] /\ Forall is_digit (show_usize n) /\
  parse_digits 0 (show_usize n) = Some n.
Proof.
  intros H. apply (dec_digits_spec 19); [|done].
  apply (N.lt_le_trans _ (2 ^ 64)); [done|]. apply N.leb_le. vm_compute. reflexivity.
Qed.
Lemma ws_not_comma c : is_ws c = true -> (c =? 44)%N = false.
Proof. intros H. apply N.eqb_neq. intros ->. discriminate H. Qed.

Lemma trim_start_ws l s : Forall (fun c => is_ws c = true) l -> trim_start (l ++ s) = trim_start s.
Proof. induction 1 as [|c l Hc _ IH]; simpl; [done|]. by rewrite Hc. Qed.

Lemma trim_start_digit c s : is_digit c -> trim_start (c :: s) = c :: s.
Proof. intros Hc. simpl. by rewrite digit_not_ws. Qed.

Lemma trim_end_digits p : p <> [] -> Forall is_digit p -> trim_end p = p.
Proof.
  induction p as [|c p IH]; intros Hne Hp; [done|].
  apply Forall_cons in Hp as [Hc Hp]. simpl. destruct p as [|c' p'].
  - simpl. by rewrite digit_not_ws.
  - by rewrite IH.
Qed.

Lemma trim_end_app l r : trim_end r <> [] -> trim_end (l ++ r) = l ++ trim_end r.
Proof.
  intros Hr. induction l as [|c l IH]; simpl; [done|]. rewrite IH.
  destruct (l ++ trim_end r) eqn:E; [|done].
  apply app_eq_nil in E as [_ ?]. done.
Qed.

Lemma split_comma_ne s : split_comma s <> [].
Proof.
  destruct s as [|c s]; simpl; [done|].
  destruct (c =? 44)%N; [done|]. by destruct (split_comma s).
Qed.

Lemma split_comma_app p r :
  Forall (fun c => (c =? 44)%N = false) p ->
  split_comma (p ++ r) =
    match split_comma r with q :: qs => (p ++ q) :: qs | [] => [p] end.
Proof.
  induction 1 as [|c p Hc _ IH]; simpl.
  - pose proof (split_comma_ne r). by destruct (split_comma r).
  - rewrite Hc, IH. by destruct (split_comma r).
Qed.

Lemma join_with_cons sep p q ps :
  join_with sep (p :: q :: ps) = p ++ sep ++ join_with sep (q :: ps).
Proof. reflexivity. Qed.

Lemma split_comma_comma s : split_comma (44%N :: s) = [] :: split_comma s.
Proof. reflexivity. Qed.

Lemma split_join ws p ps :
  Forall (fun c => (c =? 44)%N = false) ws ->
  Forall (Forall (fun c => (c =? 44)%N = false)) (p :: ps) ->
  split_comma (join_with (44%N :: ws) (p :: ps)) = p :: map (fun x => ws ++ x) ps.
Proof.
  intros Hws. revert p. induction ps as [|q ps IH]; intros p Hall;
    apply Forall_cons in Hall as [Hp Hall].
  - simpl. rewrite <- (app_nil_r p) at 1. rewrite split_comma_app by done. simpl.
    by rewrite app_nil_r.
  - rewrite join_with_cons, split_comma_app, <- app_comm_cons, split_comma_comma,
      split_comma_app, IH by done.
    by rewrite app_nil_r.
Qed.

Lemma trim_join ws ps :
  ps <> [] -> Forall (fun c => is_ws c = true) ws ->
  Forall (fun p => p <> [] /\ Forall is_digit p) ps ->
  trim_end (join_with (44%N :: ws) ps) = join_with (44%N :: ws) ps.
Proof.
  intros Hne Hws. induction ps as [|p ps IH]; [done|]. intros Hall.
  apply Forall_cons in Hall as [[Hp Hd] Hall]. destruct ps as [|q ps].
  - simpl. by apply trim_end_digits.
  - assert (Hj := IH ltac:(done) Hall). rewrite join_with_cons.
    assert (HJ : join_with (44%N :: ws) (q :: ps) <> []).
    { apply Forall_cons in Hall as [[Hq _] _]. destruct ps; simpl; [done|].
      destruct q; [done|]. discriminate. }
    assert (H2 : trim_end ((44%N :: ws) ++ join_with (44%N :: ws) (q :: ps)) =
                 (44%N :: ws) ++ join_with (44%N :: ws) (q :: ps)).
    { rewrite trim_end_app, Hj; [done|]. by rewrite Hj. }
    rewrite trim_end_app, H2; [done|]. rewrite H2. discriminate.
Qed.
Lemma parse_usize_digits p : p <> [] -> Forall is_digit p -> parse_usize p = parse_digits 0 p.
Proof.
  intros Hne Hp. destruct p as [|c [|c' p]]; [done| |];
    apply Forall_cons in Hp as [Hc _]; unfold is_digit in Hc; simpl.
  - replace (c =? 43)%N with false by (symmetry; apply N.eqb_neq; lia).
    by replace (c =? 45)%N with false by (symmetry; apply N.eqb_neq; lia).
  - by replace (c =? 43)%N with false by (symmetry; apply N.eqb_neq; lia).
Qed.

Lemma trim_digits ws p : Forall (fun c => is_ws c = true) ws ->
  p <> [] -> Forall is_digit p -> trim (ws ++ p) = p.
Proof.
  intros Hws Hne Hp. unfold trim. rewrite trim_start_ws by done.
  destruct p as [|c p]; [done|]. pose proof Hp as Hp'. apply Forall_cons in Hp' as [Hc _].
  rewrite trim_start_digit by done. by apply trim_end_digits.
Qed.

Lemma collect_parse_cons p ps :
  collect_parse (p :: ps) =
    match parse_usize (trim p) with
    | None => None
    | Some n => match collect_parse ps with None => None | Some ns => Some (n :: ns) end
    end.
Proof. reflexivity. Qed.

Lemma digits_no_comma p : Forall is_digit p -> Forall (fun c => (c =? 44)%N = false) p.
Proof. intros Hp. eapply Forall_impl; [exact Hp|]. apply digit_not_comma. Qed.

Lemma collect_shown ws ns :
  Forall (fun c => is_ws c = true) ws -> Forall (fun n => (n < 2 ^ 64)%N) ns ->
  collect_parse (map (fun x => ws ++ x) (map show_usize ns)) = Some ns.
Proof.
  intros Hws. induction ns as [|n ns IH]; intros H64; [done|].
  apply Forall_cons in H64 as [Hn H64]. destruct (show_usize_spec n Hn) as (Hne & Hd & Hp).
  simpl. rewrite trim_digits, parse_usize_digits, Hp, IH by done. done.
Qed.

(** Any non-empty list of [usize] values, written in decimal and separated by
    a comma followed by any whitespace, is accepted by the dependency field
    and read back as the same list. *)
Theorem deps_round_trip (ns ws : list N) (Hne : ns <> [])
    (Hws : Forall (fun c => is_ws c = true) ws)
    (H64 : Forall (fun n => (n < 2 ^ 64)%N) ns) :
  parse_deps (join_with (44%N :: ws) (map show_usize ns)) = Some ns.
Proof.
  destruct ns as [|n0 ns]; [done|]. pose proof H64 as H64'.
  apply Forall_cons in H64' as [Hn0 H64r]. destruct (show_usize_spec n0 Hn0) as (Hne0 & Hd0 & Hp0).
  assert (Hall : Forall (fun p => p <> [] /\ Forall is_digit p) (map show_usize (n0 :: ns))).
  { apply Forall_fmap. eapply Forall_impl; [exact H64|]. intros n Hn. simpl.
    by destruct (show_usize_spec n Hn) as (? & ? & _). }
  unfold parse_deps, trim. cbn [map].
  assert (Hts : trim_start (join_with (44%N :: ws) (show_usize n0 :: map show_usize ns)) =
                join_with (44%N :: ws) (show_usize n0 :: map show_usize ns)).
  { destruct (show_usize n0) as [|c p] eqn:E; [done|].
    apply Forall_cons in Hd0 as [Hc _]. destruct (map show_usize ns) as [|q qs].
    - simpl. by rewrite digit_not_ws.
    - rewrite join_with_cons. simpl. by rewrite digit_not_ws. }
  rewrite Hts, trim_join by done. rewrite split_join.
  - rewrite collect_parse_cons.
    rewrite <- (app_nil_l (show_usize n0)) at 1.
    rewrite trim_digits, parse_usize_digits, Hp0 by done.
    by rewrite collect_shown.
  - eapply Forall_impl; [exact Hws|]. apply ws_not_comma.
  - eapply Forall_impl; [exact Hall|]. intros p [_ Hp]. by apply digits_no_comma.
Qed.

(** A blank dependency field is refused even when the two other fields are
    filled: a task without dependencies cannot be entered through the form. *)
Theorem blank_deps_rejected (f : Form) (i0 i1 i2 : Input)
    (Hin : inputs f = [i0; i1; i2])
    (Hname : trim (value i0) <> []) (Hfile : trim (value i2) <> [])
    (Hdeps : trim (value i1) = []) :
  finish_input f = Some (set_popup f deps_error).
Proof.
  unfold finish_input. rewrite Hin. cbv zeta.
  rewrite !bool_decide_eq_false_2 by done.
  unfold parse_deps. rewrite Hdeps. reflexivity.
Qed.
Lemma select_down_mod i len : i < len -> select_down i len = Some ((i + 1) mod len).
Proof.
  intros Hi. unfold select_down.
  destruct (Nat.eqb_spec len 0) as [->|Hl]; [lia|].
  destruct (Nat.eqb_spec i (len - 1)) as [->|Hne].
  - replace (len - 1 + 1) with len by lia. by rewrite Nat.Div0.mod_same.
  - rewrite Nat.mod_small by lia. done.
Qed.

Lemma select_down_iter len i k : i < len ->
  Nat.iter k (fun o => j ← o; select_down j len) (Some i) = Some ((i + k) mod len).
Proof.
  intros Hi. induction k as [|k IH]; simpl.
  - rewrite Nat.add_0_r, Nat.mod_small; done.
  - rewrite IH. simpl. rewrite select_down_mod by (apply Nat.mod_upper_bound; lia).
    rewrite Nat.Div0.add_mod_idemp_l. f_equal. f_equal. lia.
Qed.

(** The menu and form cursors move cyclically: on a non-empty list, moving
    up then down (or down then up) returns to the same entry, every move
    stays in range, and moving down as many times as there are entries
    comes back to the start. *)
Theorem select_round_trip (len i : nat) (Hi : i < len) :
  (exists j, select_up i len = Some j /\ j < len /\ select_down j len = Some i) /\
  (exists j, select_down i len = Some j /\ j < len /\ select_up j len = Some i) /\
  Nat.iter len (fun o => j ← o; select_down j len) (Some i) = Some i.
Proof.
  split; [|split].
  - unfold select_up. destruct (Nat.eqb_spec i 0) as [->|Hi0].
    + destruct (Nat.eqb_spec len 0) as [->|Hl]; [lia|].
      exists (len - 1). split; [done|]. split; [lia|].
      unfold select_down. rewrite (proj2 (Nat.eqb_neq _ _) Hl), Nat.eqb_refl. done.
    + exists (i - 1). split; [done|]. split; [lia|].
      unfold select_down. destruct (Nat.eqb_spec len 0); [lia|].
      destruct (Nat.eqb_spec (i - 1) (len - 1)); [lia|]. f_equal. lia.
  - unfold select_down. destruct (Nat.eqb_spec len 0) as [->|Hl]; [lia|].
    destruct (Nat.eqb_spec i (len - 1)) as [->|Hne].
    + exists 0. split; [done|]. split; [lia|]. unfold select_up. simpl.
      by rewrite (proj2 (Nat.eqb_neq _ _) Hl).
    + exists (i + 1). split; [done|]. split; [lia|]. unfold select_up.
      destruct (Nat.eqb_spec (i + 1) 0); [lia|]. f_equal. lia.
  - rewrite select_down_iter by done.
    replace (i + len) with (i + 1 * len) by lia.
    rewrite Nat.Div0.mod_add, Nat.mod_small; done.
Qed.
Lemma select_up_range i len : i < len -> exists j, select_up i len = Some j /\ j < len.
Proof.
  intros Hi. unfold select_up. destruct (Nat.eqb_spec i 0); [|exists (i - 1); split; [done|lia]].
  destruct (Nat.eqb_spec len 0); [lia|]. exists (len - 1). split; [done|lia].
Qed.

Lemma select_down_range i len : i < len -> exists j, select_down i len = Some j /\ j < len.
Proof.
  intros Hi. rewrite select_down_mod by done. eexists. split; [done|].
  apply Nat.mod_upper_bound. lia.
Qed.

Lemma render_ok a : ui_ok a ->
  render a = Some (match popup (form a) with Some _ => set_state a HasPop | None => a end).
Proof.
  intros (Hl & Hi & Hf & _). unfold render.
  destruct (lookup_lt_is_Some_2 (item_list a) (idx a) ltac:(lia)) as [it Hit].
  rewrite Hit, Hf. simpl. rewrite andb_false_r. by destruct (popup (form a)).
Qed.

Lemma finish_input_ok f : length (inputs f) = 3 ->
  exists f', finish_input f = Some f' /\ length (inputs f') = 3 /\ fidx f' = fidx f.
Proof.
  intros Hl. unfold finish_input.
  destruct (inputs f) as [|i0 [|i1 [|i2 [|? ?]]]] eqn:E; try done. cbv zeta.
  case_bool_decide; [eexists; split; [done|]; simpl; by rewrite E|].
  case_bool_decide; [eexists; split; [done|]; simpl; by rewrite E|].
  destruct (parse_deps _); (eexists; split; [done|]); simpl; try rewrite E; done.
Qed.

Lemma handle_ok hi a e : ui_ok a -> exists a', handle_event hi a e = Some a' /\ ui_ok a'.
Proof.
  intros Hok. pose proof Hok as (Hl & Hi & Hf & Hx & Hp).
  destruct e as [k [|]|]; simpl; [|by eexists|by eexists].
  unfold on_key_event. destruct (state a) eqn:Es.
  - destruct k; try (eexists; split; [reflexivity|]);
      try (unfold ui_ok; simpl; repeat split; try done; congruence).
    + unfold app_select_up. rewrite Es. destruct (select_up_range (idx a) 4 Hi) as (j & Hj & Hlt).
      rewrite Hl, Hj. eexists. split; [reflexivity|].
      unfold ui_ok; simpl; repeat split; try done; congruence.
    + unfold app_select_down. rewrite Es. destruct (select_down_range (idx a) 4 Hi) as (j & Hj & Hlt).
      rewrite Hl, Hj. eexists. split; [reflexivity|].
      unfold ui_ok; simpl; repeat split; try done; congruence.
  - unfold right_key_event.
    destruct (lookup_lt_is_Some_2 (item_list a) (idx a) ltac:(lia)) as [it Hit].
    rewrite Hit. destruct it; try (by eexists).
    destruct k.
    + eexists. split; [reflexivity|]. unfold ui_ok; simpl; repeat split; try done.
    + unfold form_select. destruct (select_up_range (fidx (form a)) 3 Hx) as (j & Hj & Hlt).
      rewrite Hf, Hj. eexists. split; [reflexivity|].
      unfold ui_ok; simpl; repeat split; try done; congruence.
    + unfold form_select. destruct (select_down_range (fidx (form a)) 3 Hx) as (j & Hj & Hlt).
      rewrite Hf, Hj. eexists. split; [reflexivity|].
      unfold ui_ok; simpl; repeat split; try done; congruence.
    + destruct (lookup_lt_is_Some_2 (inputs (form a)) (fidx (form a)) ltac:(lia)) as [x Hx'].
      rewrite Hx'. eexists. split; [reflexivity|].
      unfold ui_ok; simpl; rewrite ?length_insert; repeat split; try done; congruence.
    + destruct (lookup_lt_is_Some_2 (inputs (form a)) (fidx (form a)) ltac:(lia)) as [x Hx'].
      rewrite Hx'. eexists. split; [reflexivity|].
      unfold ui_ok; simpl; rewrite ?length_insert; repeat split; try done; congruence.
    + destruct (finish_input_ok (form a) Hf) as (f' & Hf' & Hl' & Hi').
      rewrite Hf'. eexists. split; [reflexivity|].
      unfold ui_ok; simpl; rewrite ?Hi'; repeat split; try done; congruence.
    + destruct (lookup_lt_is_Some_2 (inputs (form a)) (fidx (form a)) ltac:(lia)) as [x Hx'].
      rewrite Hx'. eexists. split; [reflexivity|].
      unfold ui_ok; simpl; rewrite ?length_insert; repeat split; try done; congruence.
  - eexists. split; [reflexivity|]. unfold ui_ok; simpl; repeat split; try done.
Qed.
Lemma render_keeps_ok a : ui_ok a -> exists a1, render a = Some a1 /\ ui_ok a1.
Proof.
  intros Hok. rewrite render_ok by done. eexists. split; [reflexivity|].
  pose proof Hok as (Hl & Hi & Hf & Hx & Hp).
  destruct (popup (form a)) eqn:Ep; [|exact Hok].
  unfold ui_ok; simpl. rewrite Ep. repeat split; done.
Qed.

Lemma run_events_ok hi evs : forall a, ui_ok a ->
  exists a', run_events hi a evs = Some a' /\ ui_ok a'.
Proof.
  induction evs as [|e evs IH]; intros a Hok; simpl; [by eexists|].
  destruct (running a); [|by eexists].
  destruct (render_keeps_ok a Hok) as (a1 & -> & Hok1).
  destruct (handle_ok hi a1 e Hok1) as (a2 & -> & Hok2). by apply IH.
Qed.

Lemma app_new_ok : ui_ok (mkApp (state app_new) true (item_list app_new) (idx app_new)
                             (form app_new)).
Proof. unfold ui_ok; simpl. repeat split; try lia. done. Qed.

(** Whatever keys are pressed and whatever the text input does with them,
    the interface loop never panics: [item_list[idx]], [inputs[idx]],
    [chunk[i]], the [assert_eq!] of [finish_input] and the [len() - 1] of
    the cursors always succeed, and both cursors stay in range. *)
Theorem app_never_panics (hi : KeyCode -> Input -> Input) (evs : list Event) :
  exists a, app_run hi app_new evs = Some a /\
    idx a < length (item_list a) /\ fidx (form a) < length (inputs (form a)).
Proof.
  destruct (run_events_ok hi evs _ app_new_ok) as (a & Ha & Hl & Hi & Hf & Hx & _).
  exists a. split; [exact Ha|]. lia.
Qed.

(** In state [Right] with a menu entry other than [AddTask] selected and no
    popup, no event changes anything any more: [right_key_event] ignores
    every key of these entries, so neither [Esc] nor [Left] leads back to
    the menu and the application can no longer be quit. *)
Theorem right_pane_dead_end (hi : KeyCode -> Input -> Input) (a : App) (it : Item)
    (Hs : state a = Right) (Hit : item_list a !! idx a = Some it)
    (Hne : it <> AddTask) (Hp : popup (form a) = None) (evs : list Event) :
  run_events hi a evs = Some a.
Proof.
  induction evs as [|e evs IH]; simpl; [done|].
  destruct (running a); [|done].
  assert (Hr : render a = Some a).
  { unfold render. rewrite Hit, Hp. rewrite bool_decide_eq_false_2 by done. done. }
  rewrite Hr.
  assert (Hh : handle_event hi a e = Some a).
  { destruct e as [k [|]|]; simpl; try done.
    unfold on_key_event. rewrite Hs. unfold right_key_event. rewrite Hit.
    by destruct it. }
  by rewrite Hh.
Qed.

(** A popup is modal: whenever the loop draws the screen, the state is
    [HasPop] exactly when a popup is set, and then the next key press,
    whichever it is, only closes it and returns to [Right]. *)
Theorem popup_modal (hi : KeyCode -> Input -> Input) (evs : list Event) (a : App)
    (Hrun : app_run hi app_new evs = Some a) (Hr : running a = true) :
  exists a1, render a = Some a1 /\
    (state a1 = HasPop <-> is_Some (popup (form a1))) /\
    forall k, state a1 = HasPop ->
      exists a2, handle_event hi a1 (EKey k true) = Some a2 /\
        state a2 = Right /\ popup (form a2) = None /\ running a2 = true.
Proof.
  destruct (run_events_ok hi evs _ app_new_ok) as (a' & Ha & Hok).
  unfold app_run in Hrun. rewrite Hrun in Ha. injection Ha as <-.
  rewrite render_ok by done. eexists. split; [reflexivity|].
  destruct Hok as (_ & _ & _ & _ & Hp).
  destruct (popup (form a)) eqn:Ep; simpl.
  - rewrite Ep. split; [done|]. intros k _. eexists. split; [reflexivity|]. done.
  - rewrite Ep. split; [split; [intros H; destruct (Hp H); congruence|by intros []]|].
    intros k H. destruct (Hp H); congruence.
Qed.
Lemma deps_round_trip_witness :
  parse_deps (join_with [44%N; 32%N] (map show_usize [7%N; 42%N; 18446744073709551615%N])) =
    Some [7%N; 42%N; 18446744073709551615%N].
Proof.
  apply (deps_round_trip [7%N; 42%N; 18446744073709551615%N] [32%N]).
  - discriminate.
  - repeat constructor.
  - repeat constructor; apply N.ltb_lt; vm_compute; reflexivity.
Defined.

Lemma blank_deps_rejected_witness :
  finish_input form_blank_deps = Some (set_popup form_blank_deps deps_error).
Proof.
  apply (blank_deps_rejected form_blank_deps (mkInput [116%N] 1) (mkInput [32%N; 9%N] 2)
           (mkInput [102%N] 1)); vm_compute; try reflexivity; discriminate.
Defined.

Lemma select_round_trip_witness :
  (exists j, select_up 3 4 = Some j /\ j < 4 /\ select_down j 4 = Some 3) /\
  (exists j, select_down 3 4 = Some j /\ j < 4 /\ select_up j 4 = Some 3) /\
  Nat.iter 4 (fun o => j ← o; select_down j 4) (Some 3) = Some 3.
Proof. apply (select_round_trip 4 3). lia. Defined.

Lemma right_pane_dead_end_witness :
  app_run (fun _ i => i) app_new [EKey KDown true; EKey KRight true] = Some stuck_app /\
  run_events (fun _ i => i) stuck_app [EKey KEsc true; EKey KLeft true; EKey KUp true] =
    Some stuck_app.
Proof.
  split; [reflexivity|].
  apply (right_pane_dead_end (fun _ i => i) stuck_app RemoveTask); try reflexivity.
  discriminate.
Defined.

Lemma popup_modal_witness :
  exists a, app_run (fun _ i => i) app_new [EKey KRight true; EKey KEnter true] = Some a /\
    exists a1, render a = Some a1 /\
      (state a1 = HasPop <-> is_Some (popup (form a1))) /\
      forall k, state a1 = HasPop ->
        exists a2, handle_event (fun _ i => i) a1 (EKey k true) = Some a2 /\
          state a2 = Right /\ popup (form a2) = None /\ running a2 = true.
Proof.
  destruct (app_run (fun _ i => i) app_new [EKey KRight true; EKey KEnter true])
    as [a|] eqn:E; [|discriminate].
  exists a. split; [reflexivity|].
  apply (popup_modal (fun _ i => i) [EKey KRight true; EKey KEnter true] a E).
  vm_compute in E. injection E as <-. reflexivity.
Defined.
End TUIFacts.

Module SPMCQueueWitness.
Import SPMCQueue SPMCQueueFacts.
Lemma run_ops_fifo_witness :
  run_ops [1; 2] [Push 3; Pop 0; Pop 1; Push 4] <> RFailed /\
  (map snd [(0, 1); (1, 2)] ++ [3; 4] = [1; 2] ++ [3; 4] /\ length [(0, 1); (1, 2)] = 2).
Proof.
  destruct (run_ops_fifo [Push 3; Pop 0; Pop 1; Push 4] [1; 2]) as [H1 H2].
  split; [exact H1|]. apply H2. reflexivity.
Defined.
End SPMCQueueWitness.
